(** * spectator-cpp: MaxGauge, Publisher and the batch encoder

    A shallow embedding of [max_gauge.cc], [publisher.h] and the parts of
    [registry.cc] the publisher relies on, with the properties of the
    meters, of the wire format and of the publisher's life cycle.

    Conventions.
    - A C++ [double] is an IEEE-754 binary64 value, taken from the
      Standard Library's [spec_float]; [==] is [SFeqb] and [a > b] is
      [SFltb b a], so NaN, the infinities and both zeros behave as in C++.
    - [Tags], the string table and the common tags are hash maps; they are
      finite maps ([gmap]) and a range-for over one walks [map_to_list].
    - A [std::atomic] operation is one step on the state: [exchange] and the
      compare-and-set loop of [update_max] are linearizable, so a concurrent
      history of [Update] and [Measure] calls is the sequence of those
      steps in some order.
    - Dereferencing [end()], moving an iterator out of its range and the
      like are undefined in C++; the embedding makes them explicit results
      ([None], [Undefined]).
    - The integers pushed to a payload (string counts, indices, tag counts,
      batch sizes) are in [Z]: they count elements of containers held in
      memory and stay far below the bounds of [int] and [int64_t].
    - A loop that need not end is run for a number of iterations, its fuel;
      that it ends is stated as a result for enough fuel.
    - The registry holds its meters by identity.  Counters, which the
      publisher updates itself, are given in full; of the meters of the
      other kinds only [Measure] matters, and they are a parameter.
    - [Publisher] is a template over the registry type [R]; a static local
      of [Publisher<R>::Start] exists once for every [R], and a registry
      type is named by a string. *)

From Stdlib Require Import ZArith List Lia.
From Stdlib Require Import Floats.SpecFloat.
From stdpp Require Import base gmap sets list strings sorting pretty.

Local Open Scope Z_scope.

(* [set_solver] clears hypotheses it has already used. *)
Set Warnings "-clear-no-such-hyp".

(** ** Doubles *)

Module Double.

Abbreviation double := spec_float (only parsing).

(** [std::numeric_limits<double>::lowest()]: -(2^53 - 1) * 2^971. *)
Definition lowest : double := S754_finite true 9007199254740991 971.

Definition neg_infinity : double := S754_infinity true.
Definition nan : double := S754_nan.

(** [static_cast<double>(z)] and integer literals, rounded to nearest. *)
Definition of_Z (z : Z) : double := binary_normalize 53 1024 z 0 false.

(** C++ [a > b] and [a == b] on doubles. *)
Definition gt (a b : double) : bool := SFltb b a.
Definition eqb (a b : double) : bool := SFeqb a b.

End Double.

(** ** Identities, tags and measurements *)

(** [Tags] wraps a hash map from tag key to tag value. *)
Abbreviation Tags := (gmap string string) (only parsing).

(** Modelled from the spec: [Tags::at], of the missing [tags.h].  A
    statistic tag that is missing counts as not recognized: a key that is
    absent yields the empty string. *)
Definition Tags_at (tags : Tags) (key : string) : string :=
  default EmptyString (tags !! key).

Record Id := mkId { Name : string; GetTags : Tags }.

Global Instance Id_eq_dec : EqDecision Id.
Proof. solve_decision. Defined.

Global Instance Id_countable : Countable Id.
Proof.
  apply (inj_countable' (λ i, (Name i, GetTags i)) (λ p, mkId p.1 p.2)).
  by intros [].
Defined.

(** Modelled from the spec: [Id::WithStat], of the missing [id.h].  It
    returns a new identity with the tag [statistic = s] added or
    overridden. *)
Definition WithStat (id : Id) (s : string) : Id :=
  mkId (Name id) (<["statistic"%string := s]> (GetTags id)).

Record Measurement := mkMeasurement { id : Id; value : Double.double }.

(** ** MaxGauge ([max_gauge.cc]) *)

Module MaxGauge.

Definition kMinValue : Double.double := Double.lowest.

Record t := mk { id_ : Id; value_ : Double.double }.

(** [MaxGauge::MaxGauge(IdPtr id)] *)
Definition new (i : Id) : t := mk i kMinValue.

Definition MeterId (g : t) : Id := id_ g.

(** Modelled from the spec: [update_max], of the missing [atomicnumber.h].
    It tracks the running maximum with a compare-and-set loop: the stored
    value is replaced when the new one is greater. *)
Definition update_max (current v : Double.double) : Double.double :=
  if Double.gt v current then v else current.

(** [MaxGauge::Measure]: returns the gauge after the exchange and the
    measurements. *)
Definition Measure (g : t) : t * list Measurement :=
  let value := value_ g in
  let g' := mk (id_ g) kMinValue in
  if Double.eqb value kMinValue then (g', [])
  else (g', [mkMeasurement (WithStat (id_ g) "max") value]).

Definition Get (g : t) : Double.double := value_ g.

(** [MaxGauge::Update] *)
Definition Update (g : t) (v : Double.double) : t :=
  mk (id_ g) (update_max (value_ g) v).

(** The gauge after a sequence of updates. *)
Definition Updates (g : t) (vs : list Double.double) : t :=
  foldl Update g vs.

End MaxGauge.

(** ** The meters of the registry ([registry.cc]) *)

Module MeterStore.

Section meters.

(** Modelled from the spec: the interface [Meter], of the missing [meter.h],
    as [registry.cc] uses it: a meter tells its identity and is measured,
    which may change it.  [Measure] returns the meter after the call and
    the measurements. *)
Context {Meter : Type}.
Variable MeterId : Meter → Id.
Variable Measure : Meter → Meter * list Measurement.

(** Modelled from the spec: [meters_], declared in the missing [registry.h],
    is a map from identity to meter, with identities equal when their
    contents are. *)
Abbreviation MeterMap := (gmap Id Meter) (only parsing).

(** [Registry::insert_if_needed]: [emplace] inserts only when the key is
    not in the map, and gives the position of the element with that key
    either way.  Returns the map after the call and the meter returned. *)
Definition insert_if_needed (meters_ : MeterMap) (meter : Meter)
    : MeterMap * Meter :=
  match meters_ !! MeterId meter with
  | Some existing => (meters_, existing)
  | None => (<[MeterId meter := meter]> meters_, meter)
  end.

(** The body of the loop of [Registry::Measurements] for one element of
    the map: the meter is measured in place and its measurements are moved
    to the end of [res]. *)
Definition measure_one (st : MeterMap * list Measurement) (pair : Id * Meter)
    : MeterMap * list Measurement :=
  (<[pair.1 := (Measure pair.2).1]> st.1, st.2 ++ (Measure pair.2).2).

(** [Registry::Measurements]: the map after the call and [res]. *)
Definition Measurements (meters_ : MeterMap) : MeterMap * list Measurement :=
  foldl measure_one (meters_, []) (map_to_list meters_).

(** [Registry::Meters] *)
Definition Meters (meters_ : MeterMap) : list Meter :=
  foldl (λ res pair, res ++ [pair.2]) [] (map_to_list meters_).

End meters.

End MeterStore.

(** ** Configuration and the registry *)

(** Modelled from the spec: the fields [uri], [read_timeout],
    [connect_timeout] and [batch_size], which [Publisher] reads from the
    registry's configuration next to [common_tags], are missing from
    [config.h]; the endpoint is a string and the three numbers are [int]s. *)
Record Config := mkConfig {
  uri : string;
  common_tags : Tags;
  read_timeout : Z;
  connect_timeout : Z;
  batch_size : Z
}.

Inductive Level := warn | error | info | debug.

(** A log line: level, format string and the formatted arguments. *)
Record LogEntry := mkLog { level : Level; message : string; args : list Z }.

(** Modelled from the spec: [Counter], whose source is missing.  A counter
    adds the amounts passed that are not negative to its accumulator;
    [Measure] returns the accumulator as the statistic [count] if it is not
    zero, and resets it to 0. *)
Module Counter.

Record t := mk { id_ : Id; count_ : Z }.

Definition new (i : Id) : t := mk i 0.

Definition MeterId (c : t) : Id := id_ c.

Definition Add (c : t) (delta : Z) : t :=
  mk (id_ c) (if 0 <=? delta then count_ c + delta else count_ c).

Definition Measure (c : t) : t * list Measurement :=
  (mk (id_ c) 0,
   if count_ c =? 0 then []
   else [mkMeasurement (WithStat (id_ c) "count") (Double.of_Z (count_ c))]).

End Counter.

Module Registry.

(** [Registry::CreateId] *)
Definition CreateId (name : string) (tags : Tags) : Id := mkId name tags.

Section registry.

(** The meters of the other kinds, of which [Measure] is all that matters
    to the publisher. *)
Variable Other : Type.
Variable Measure_other : Other → Other * list Measurement.

(** A meter of the registry: a counter, the kind the publisher itself
    updates, or a meter of another kind. *)
Inductive Meter :=
| IsCounter (c : Counter.t)
| IsOther (o : Other).

(** Modelled from the spec: [registry.h] is missing.  The registry is its
    configuration and its meters, by identity. *)
Record t := mk { config_ : Config; meters_ : gmap Id Meter }.

(** [Registry::GetConfig] *)
Definition GetConfig (r : t) : Config := config_ r.

(** The accumulator of the counter [i]; a counter not yet created is idle,
    which is 0. *)
Definition count (r : t) (i : Id) : Z :=
  match meters_ r !! i with
  | Some (IsCounter c) => Counter.count_ c
  | _ => 0
  end.

(** Modelled from the spec: [GetCounter(i)->Add(delta)], with
    [create_and_register_as_needed] missing.  [GetCounter] is
    get-or-create: the counter registered under [i], or a new one
    registered now, receives the amount.  When a meter of another kind
    holds [i], which is a type mismatch, the registry keeps that meter;
    what the amount does to a meter of another kind is not modelled, the
    registry is left as it is, and the properties of the send cycle are
    stated for registries where the identities of the publisher's counters
    are [free]. *)
Definition GetCounter_Add (r : t) (i : Id) (delta : Z) : t :=
  match meters_ r !! i with
  | Some (IsCounter c) =>
      mk (config_ r) (<[i := IsCounter (Counter.Add c delta)]> (meters_ r))
  | Some (IsOther _) => r
  | None =>
      mk (config_ r)
         (<[i := IsCounter (Counter.Add (Counter.new i) delta)]> (meters_ r))
  end.

(** [GetCounter(name)] is [GetCounter(CreateId(name, Tags{}))]. *)
Definition GetCounter_name_Add (r : t) (name : string) (delta : Z) : t :=
  GetCounter_Add r (CreateId name ∅) delta.

(** [Meter::Measure], by the kind of the meter. *)
Definition Measure (m : Meter) : Meter * list Measurement :=
  match m with
  | IsCounter c => (IsCounter (Counter.Measure c).1, (Counter.Measure c).2)
  | IsOther o => (IsOther (Measure_other o).1, (Measure_other o).2)
  end.

(** [Registry::Measurements], with the registry it leaves. *)
Definition Measurements (r : t) : t * list Measurement :=
  (mk (config_ r) (MeterStore.Measurements Measure (meters_ r)).1,
   (MeterStore.Measurements Measure (meters_ r)).2).

(** No meter of another kind holds the identity [i]. *)
Definition free (r : t) (i : Id) : Prop :=
  ∀ o, meters_ r !! i ≠ Some (IsOther o).

End registry.

Arguments IsCounter {Other} c.
Arguments IsOther {Other} o.
Arguments mk {Other} config_ meters_.
Arguments config_ {Other} t.
Arguments meters_ {Other} t.
Arguments GetConfig {Other} r.
Arguments count {Other} r i.
Arguments GetCounter_Add {Other} r i delta.
Arguments GetCounter_name_Add {Other} r name delta.
Arguments Measure {Other} Measure_other m.
Arguments Measurements {Other} Measure_other r.
Arguments free {Other} r i.

End Registry.

(** ** The publisher ([publisher.h]) *)

(** The payload is a JSON array ([rapidjson::Document] of [kArrayType]):
    the list of the values pushed back, in order. *)
Inductive JValue :=
| JInt (z : Z)
| JString (s : string)
| JDouble (d : Double.double).

(** What a loop that may not terminate, or may leave the defined behaviour
    of C++, yields within a given number of iterations. *)
Inductive Run (A : Type) :=
| Finished (a : A)
| Undefined
| OutOfFuel.
Arguments Finished {A} a.
Arguments Undefined {A}.
Arguments OutOfFuel {A}.

Module Publisher.

(** *** The string table *)

Abbreviation StrTable := (gmap string Z) (only parsing).

(** [strings[tag.first] = 0; strings[tag.second] = 0;] *)
Definition note_tag (strings : StrTable) (tag : string * string) : StrTable :=
  <[tag.2 := 0]> (<[tag.1 := 0]> strings).

(** [strings[m.id->Name()] = 0;] and the loop over the tags of [m]. *)
Definition note_measurement (strings : StrTable) (m : Measurement) : StrTable :=
  foldl note_tag (<[Name (id m) := 0]> strings) (map_to_list (GetTags (id m))).

(** [for (i = 0u; i < sorted_strings.size(); ++i) strings[sorted_strings[i]] = i;]
    from index [i] on. *)
Fixpoint assign_indices (i : nat) (sorted_strings : list string)
    (strings : StrTable) : StrTable :=
  match sorted_strings with
  | [] => strings
  | s :: rest => assign_indices (S i) rest (<[s := Z.of_nat i]> strings)
  end.

(** [std::sort] on [std::string]s: ascending in the byte-wise
    lexicographic order. *)
Definition std_sort (l : list string) : list string := merge_sort String.le l.

(** The strings collected by the first half of [build_str_table]. *)
Definition collect_strings (cfg : Config) (batch : list Measurement) : StrTable :=
  let strings := foldl note_tag ∅ (map_to_list (common_tags cfg)) in
  let strings := <["name"%string := 0]> strings in
  foldl note_measurement strings batch.

(** [sorted_strings] of [build_str_table]. *)
Definition sorted_strings (cfg : Config) (batch : list Measurement) : list string :=
  std_sort ((map_to_list (collect_strings cfg batch)).*1).

(** [build_str_table(payload, first, last)]: the payload after the pushes
    and the table returned. *)
Definition build_str_table (cfg : Config) (payload : list JValue)
    (batch : list Measurement) : list JValue * StrTable :=
  let strings := collect_strings cfg batch in
  let sorted_strings := std_sort ((map_to_list strings).*1) in
  let strings := assign_indices 0 sorted_strings strings in
  let payload := payload ++ [JInt (Z.of_nat (size strings))] in
  let payload := payload ++ (JString <$> sorted_strings) in
  (payload, strings).

(** *** Measurement records *)

Inductive Op := Unknown | Add | Max.

(** [static_cast<int>(op)] *)
Definition op_num (op : Op) : Z :=
  match op with Unknown => -1 | Add => 0 | Max => 10 end.

Definition op_from_tags (tags : Tags) : Op :=
  let stat := Tags_at tags "statistic" in
  if ((stat =? "count") || (stat =? "totalAmount") || (stat =? "totalTime") ||
      (stat =? "totalOfSquares") || (stat =? "percentile"))%string then Add
  else if ((stat =? "max") || (stat =? "gauge") || (stat =? "activeTasks") ||
           (stat =? "duration"))%string then Max
  else Unknown.

(** The loop of [add_tags] over the tags still to visit.  [strings.find]
    of a string that is not in the table gives [end()], whose dereference
    is undefined: [None]. *)
Fixpoint add_tags_loop (payload : list JValue) (strings : StrTable)
    (tags : list (string * string)) : option (list JValue) :=
  match tags with
  | [] => Some payload
  | tag :: rest =>
      k ← strings !! tag.1;
      v ← strings !! tag.2;
      add_tags_loop (payload ++ [JInt k; JInt v]) strings rest
  end.

Definition add_tags (payload : list JValue) (strings : StrTable)
    (tags : Tags) : option (list JValue) :=
  add_tags_loop payload strings (map_to_list tags).

Definition append_measurement (cfg : Config) (payload : list JValue)
    (strings : StrTable) (m : Measurement) : option (list JValue) :=
  let op := op_from_tags (GetTags (id m)) in
  match op with
  | Unknown => Some payload
  | _ =>
      let total_tags :=
        Z.of_nat (size (GetTags (id m))) + 1 + Z.of_nat (size (common_tags cfg)) in
      let payload := payload ++ [JInt total_tags] in
      payload ← add_tags payload strings (common_tags cfg);
      payload ← add_tags payload strings (GetTags (id m));
      name_idx ← strings !! "name"%string;
      name_value_idx ← strings !! Name (id m);
      Some (payload ++ [JInt name_idx; JInt name_value_idx;
                        JInt (op_num op); JDouble (value m)])
  end.

(** The loop of [measurements_to_json] over the measurements left. *)
Fixpoint append_measurements (cfg : Config) (payload : list JValue)
    (strings : StrTable) (ms : list Measurement) : option (list JValue) :=
  match ms with
  | [] => Some payload
  | m :: rest =>
      payload ← append_measurement cfg payload strings m;
      append_measurements cfg payload strings rest
  end.

(** [measurements_to_json(first, last, &added)]: the document and [added]. *)
Definition measurements_to_json (cfg : Config) (batch : list Measurement)
    : option (list JValue * Z) :=
  let '(payload, strings) := build_str_table cfg [] batch in
  payload ← append_measurements cfg payload strings batch;
  Some (payload, Z.of_nat (length batch)).

(** *** The send cycle *)

(** C++ [a || b] on two [int]s is the [bool] that tells whether one of them
    is non-zero; a [bool] passed where an [int] is expected is 0 or 1. *)
Definition logical_or (a b : Z) : bool := negb (a =? 0) || negb (b =? 0).
Definition int_of_bool (b : bool) : Z := if b then 1 else 0.

(** Modelled from the spec: [HttpClient], of the missing [http_client.h].
    Its constructor takes the connect and the read timeout, in seconds, as
    [int]s and keeps them. *)
Record HttpClient := mkHttpClient { connect_timeout_ : Z; read_timeout_ : Z }.

(** The client [send_metrics] constructs. *)
Definition make_client (cfg : Config) : HttpClient :=
  let read_timeout := logical_or (read_timeout cfg) 2 in
  let connect_timeout := logical_or (connect_timeout cfg) 1 in
  mkHttpClient (int_of_bool connect_timeout) (int_of_bool read_timeout).

(** The variables of the batching loop: the range [from, end) still to
    send, the documents and their sizes. *)
Record Batching := mkBatching {
  from : list Measurement;
  batches : list (list JValue);
  batch_sizes : list Z
}.

(** [std::min(batch_size, std::distance(from, end))] *)
Definition to_advance (batch_size : Z) (from : list Measurement) : Z :=
  Z.min batch_size (Z.of_nat (length from)).

Inductive Step := Exit | Continue (st : Batching) | Fault.

(** The test and the body of [while (from != end)].  A negative
    [to_advance] puts [to] before [from]: the range [from, to) handed to
    [measurements_to_json] is then not a range, which is undefined. *)
Definition loop_body (cfg : Config) (st : Batching) : Step :=
  match from st with
  | [] => Exit
  | _ :: _ =>
      let n := to_advance (batch_size cfg) (from st) in
      if n <? 0 then Fault
      else
        match measurements_to_json cfg (take (Z.to_nat n) (from st)) with
        | None => Fault
        | Some (doc, added) =>
            Continue (mkBatching (drop (Z.to_nat n) (from st))
                                 (batches st ++ [doc])
                                 (batch_sizes st ++ [added]))
        end
  end.

(** The loop, run for at most [fuel] iterations beyond the first test. *)
Fixpoint batch_loop (fuel : nat) (cfg : Config) (st : Batching) : Run Batching :=
  match loop_body cfg st with
  | Exit => Finished st
  | Fault => Undefined
  | Continue st' =>
      match fuel with
      | O => OutOfFuel
      | S fuel' => batch_loop fuel' cfg st'
      end
  end.

Section cycle.

Context {Other : Type}.
Variable Measure_other : Other → Other * list Measurement.

Definition update_sent (r : Registry.t Other) (num_sent : Z) : Registry.t Other :=
  Registry.GetCounter_name_Add r "spectator.measurementsSent" num_sent.

(** [std::to_string(status_code)] is the decimal numeral, [pretty]. *)
Definition update_http_err (r : Registry.t Other) (status_code num_not_sent : Z)
    : Registry.t Other :=
  let tags : Tags := {[ "error"%string := "httpError"%string ]} in
  let tags := <["statusCode"%string := pretty status_code]> tags in
  Registry.GetCounter_Add r
    (Registry.CreateId "spectator.measurementsErr" tags) num_not_sent.

(** [for (i = 0u; i < http_codes.size(); ++i)], from index [i] on, over the
    codes not yet visited.  [batch_sizes[i]] beyond the end of the vector is
    undefined: [None]. *)
Fixpoint account (i : nat) (http_codes : list Z) (batch_sizes : list Z)
    (st : Registry.t Other * list LogEntry)
    : option (Registry.t Other * list LogEntry) :=
  match http_codes with
  | [] => Some st
  | http_code :: rest =>
      num_measurements ← batch_sizes !! i;
      let st' :=
        if negb (http_code =? 200) then
          (update_http_err st.1 http_code num_measurements,
           st.2 ++ [mkLog error
                      "Unable to send batch of {} measurements to publish: {}"
                      [num_measurements; http_code]])
        else (update_sent st.1 num_measurements, st.2) in
      account (S i) rest batch_sizes st'
  end.

(** [send_metrics], on the registry and the log, for the transport
    [PostBatches].  [registry_->Measurements()] measures every meter of the
    registry, the counters of the publisher among them; the statuses are
    accounted to the registry as the snapshot left it. *)
Definition send_metrics
    (PostBatches : HttpClient → string → list (list JValue) → list Z)
    (fuel : nat) (st : Registry.t Other * list LogEntry)
    : Run (Registry.t Other * list LogEntry) :=
  let cfg := Registry.GetConfig st.1 in
  let client := make_client cfg in
  let snapshot := Registry.Measurements Measure_other st.1 in
  let measurements := snapshot.2 in
  match batch_loop fuel cfg (mkBatching measurements [] []) with
  | Finished b =>
      let http_codes := PostBatches client (uri cfg) (batches b) in
      match account 0 http_codes (batch_sizes b) (snapshot.1, st.2) with
      | Some st' => Finished st'
      | None => Undefined
      end
  | Undefined => Undefined
  | OutOfFuel => OutOfFuel
  end.

End cycle.

(** *** Start and Stop *)

(** What a call does to the world outside the publisher, in order. *)
Inductive Event :=
| GlobalInit                          (* HttpClient::GlobalInit() *)
| GlobalShutdown                      (* HttpClient::GlobalShutdown() *)
| Warn (msg : string)                 (* Logger()->warn(msg) *)
| ThreadStart                         (* std::thread(&Publisher::sender, this) *)
| NotifyAll                           (* cv_.notify_all() *)
| Join.                               (* sender_thread_.join() returned *)

Global Instance Event_eq_dec : EqDecision Event.
Proof. solve_decision. Defined.

(** The process as [Publisher<R>::Start] sees it, for one registry type
    [R]: the function-local static of that [Start], and the events so
    far. *)
Record Process := mkProcess { http_initialized : bool; events : list Event }.

Definition emit (w : Process) (e : Event) : Process :=
  mkProcess (http_initialized w) (events w ++ [e]).

(** What the first statement of [Start] does: it initializes the transport
    unless a [Start] of the same [Publisher<R>] has done so before. *)
Definition init_events (w : Process) : list Event :=
  if http_initialized w then [] else [GlobalInit].

(** The publisher's members.  Of [sender_thread_] only whether it is
    joinable matters: a [std::thread] is joinable from the moment it is
    given a thread to run until it is joined. *)
Record t := mk { started_ : bool; should_stop_ : bool; joinable : bool }.

(** [Publisher(R* registry)] *)
Definition new : t := mk false false false.

Definition fresh : Process := mkProcess false [].

Definition Start (cfg : Config) (w : Process) (p : t) : Process * t :=
  let w :=
    if negb (http_initialized w)
    then emit (mkProcess true (events w)) GlobalInit
    else w in
  if String.eqb (uri cfg) EmptyString then
    (emit w (Warn "Registry config has no uri. Ignoring start request"), p)
  else if started_ p then
    (emit w (Warn "Registry already started. Ignoring start request"),
     mk true (should_stop_ p) (joinable p))
  else
    (emit w ThreadStart, mk true (should_stop_ p) true).

(** The whole process.  [http_initialized] is a static local of
    [Publisher<R>::Start], so there is one flag for every registry type [R]
    the template is instantiated with: [initialized] holds the registry
    types whose flag is set.  The events are those of the process. *)
Record World := mkWorld { initialized : gset string; happened : list Event }.

Definition fresh_world : World := mkWorld ∅ [].

(** What [Publisher<R>::Start] sees of the process: the flag of [R] and the
    events. *)
Definition view (R : string) (pw : World) : Process :=
  mkProcess (bool_decide (R ∈ initialized pw)) (happened pw).

(** [Start] of a publisher of a registry of type [R]. *)
Definition Start_of (R : string) (cfg : Config) (pw : World) (p : t)
    : World * t :=
  let result := Start cfg (view R pw) p in
  (mkWorld (if http_initialized result.1 then {[R]} ∪ initialized pw
            else initialized pw)
           (events result.1),
   result.2).

(** [Start] called on several publishers of one process, one after the
    other, each with the type and the configuration of its registry. *)
Fixpoint start_all (pw : World) (ps : list (string * (Config * t)))
    : World * list t :=
  match ps with
  | [] => (pw, [])
  | (R, (cfg, p)) :: rest =>
      let started := Start_of R cfg pw p in
      let others := start_all started.1 rest in
      (others.1, started.2 :: others.2)
  end.

(** How a call ends: it returns, or an exception leaves it. *)
Inductive Outcome :=
| Returns (w : Process) (p : t)
| Throws (what : string) (w : Process) (p : t).

(** [Stop].  [join] on a thread that is not joinable throws
    [std::system_error]; on a joinable one it returns once the worker has
    left [sender], which it does at the next test of [should_stop_]. *)
Definition Stop (w : Process) (p : t) : Outcome :=
  if negb (started_ p) then Returns w p
  else
    let p := mk (started_ p) true (joinable p) in
    let w := emit w NotifyAll in
    if joinable p then
      let w := emit w Join in
      let p := mk (started_ p) (should_stop_ p) false in
      Returns (emit w GlobalShutdown) p
    else Throws "std::system_error" w p.

End Publisher.

(** ** What the wire format is to contain *)

Module Wire.

(** [s] is a key or a value of [tags]. *)
Definition in_tags (tags : Tags) (s : string) : Prop :=
  ∃ k v, tags !! k = Some v ∧ (s = k ∨ s = v).

(** The strings a batch refers to: the keys and values of the common tags,
    the literal [name], and the name and the tag keys and values of every
    measurement of the batch. *)
Definition referenced (cfg : Config) (batch : list Measurement) (s : string) : Prop :=
  in_tags (common_tags cfg) s ∨ s = "name"%string ∨
  ∃ m, m ∈ batch ∧ (s = Name (id m) ∨ in_tags (GetTags (id m)) s).

(** The rank of [s] among [strings]: how many of them are strictly below
    [s] in the byte-wise lexicographic order. *)
Definition rank (strings : list string) (s : string) : Z :=
  Z.of_nat (length (filter (λ x, String.ltb x s) strings)).

(** The statistics the backend adds up and those it takes the maximum of. *)
Definition add_statistics : list string :=
  ["count"; "totalAmount"; "totalTime"; "totalOfSquares"; "percentile"]%string.
Definition max_statistics : list string :=
  ["max"; "gauge"; "activeTasks"; "duration"]%string.

(** The op code of a tag set: 0 (Add) or 10 (Max) when its statistic tag is
    recognized, none when the tag is missing or not recognized. *)
Definition op_code (tags : Tags) : option Z :=
  match tags !! "statistic"%string with
  | Some stat =>
      if decide (stat ∈ add_statistics) then Some 0
      else if decide (stat ∈ max_statistics) then Some 10
      else None
  | None => None
  end.

(** The statistic tag is missing or is none of the recognized ones. *)
Definition unrecognized (tags : Tags) : Prop :=
  ∀ stat, tags !! "statistic"%string = Some stat →
          (stat ∉ add_statistics) ∧ (stat ∉ max_statistics).

(** The index pairs of a tag map, under an indexing [idx] of the strings. *)
Definition tag_indices (idx : string → Z) (tags : Tags) : list JValue :=
  flat_map (λ tag : string * string, [JInt (idx tag.1); JInt (idx tag.2)])
           (map_to_list tags).

(** The record of a measurement with op code [code]:
    [tagCount, common tag pairs, identity tag pairs, nameKeyIdx,
     nameValueIdx, opCode, value]. *)
Definition record (idx : string → Z) (cfg : Config) (code : Z)
    (m : Measurement) : list JValue :=
  [JInt (Z.of_nat (size (GetTags (id m))) + 1 + Z.of_nat (size (common_tags cfg)))]
  ++ tag_indices idx (common_tags cfg)
  ++ tag_indices idx (GetTags (id m))
  ++ [JInt (idx "name"%string); JInt (idx (Name (id m))); JInt code;
      JDouble (value m)].

(** The records of the measurements of a list that have an op code. *)
Definition records (idx : string → Z) (cfg : Config) (ms : list Measurement)
    : list JValue :=
  flat_map (λ m, match op_code (GetTags (id m)) with
                 | Some code => record idx cfg code m
                 | None => []
                 end) ms.

(** The document of a batch: the count of its strings, the strings in
    ascending order, and the records of its measurements. *)
Definition document (cfg : Config) (batch : list Measurement) : list JValue :=
  JInt (Z.of_nat (length (Publisher.sorted_strings cfg batch)))
  :: (JString <$> Publisher.sorted_strings cfg batch)
  ++ records (rank (Publisher.sorted_strings cfg batch)) cfg batch.

(** [ceil(n / b)] for a positive [b]. *)
Definition ceil_div (n b : Z) : Z := (n + b - 1) / b.

End Wire.

(** ** The publisher's own counters *)

Module Counters.

(** [spectator.measurementsSent] *)
Definition sent : Id := Registry.CreateId "spectator.measurementsSent" ∅.

(** [spectator.measurementsErr] with the tags [error = httpError] and
    [statusCode = <code>]. *)
Definition err (status_code : Z) : Id :=
  Registry.CreateId "spectator.measurementsErr"
    (<["statusCode"%string := pretty status_code]>
       {[ "error"%string := "httpError"%string ]}).

(** The counter a batch with status [http_code] is accounted to. *)
Definition counter_for (http_code : Z) : Id :=
  if http_code =? 200 then sent else err http_code.

(** The measurements of the batches whose status satisfies [P]: the sum of
    their sizes. *)
Fixpoint accounted (P : Z → bool) (http_codes batch_sizes : list Z) : Z :=
  match http_codes, batch_sizes with
  | http_code :: codes, size :: sizes =>
      (if P http_code then size else 0) + accounted P codes sizes
  | _, _ => 0
  end.

End Counters.

(** ** The worker of the publisher ([Publisher::sender]) *)

Module Sender.

Definition kSendEveryMillis : Z := 5000.

(** What follows a send cycle in the body of the loop of [sender]: a wait
    for at most [sleep], or the next test of the stop flag at once. *)
Inductive AfterSend := WaitFor (sleep : Z) | NoWait.

(** The body of the loop after [send_metrics] has returned or thrown, for a
    cycle that took [elapsed] ticks of [R::clock], of which
    [ticks_per_milli] make a millisecond.  [duration_cast] rounds towards
    zero; [milliseconds(kSendEveryMillis) - elapsed] is in ticks. *)
Definition after_send (ticks_per_milli elapsed : Z) : AfterSend :=
  let millis := Z.quot elapsed ticks_per_milli in
  if millis <? kSendEveryMillis
  then WaitFor (kSendEveryMillis * ticks_per_milli - elapsed)
  else NoWait.

End Sender.

(** ** Stopping several publishers *)

Module Lifecycle.

(** [Stop] called on several publishers of one process, one after the
    other, each with the type of its registry; an exception ends the
    sequence.  [Stop] has no static of its own: it leaves the flags of
    [Start] as they are. *)
Fixpoint stop_all (pw : Publisher.World) (ps : list (string * Publisher.t))
    : option (Publisher.World * list Publisher.t) :=
  match ps with
  | [] => Some (pw, [])
  | (R, p) :: rest =>
      match Publisher.Stop (Publisher.view R pw) p with
      | Publisher.Returns w' p' =>
          others ← stop_all (Publisher.mkWorld (Publisher.initialized pw)
                                               (Publisher.events w')) rest;
          Some (others.1, p' :: others.2)
      | Publisher.Throws _ _ _ => None
      end
  end.

End Lifecycle.

(** ** Reading a document back *)

Module Decode.

(** What a record of a document says: the tags with the name as the last
    one, the op code and the value. *)
Record Entry := mkEntry {
  tags : list (string * string);
  op : Z;
  val : Double.double
}.

(** The [n] strings at the head of a payload. *)
Fixpoint strings_of (n : nat) (l : list JValue)
    : option (list string * list JValue) :=
  match n with
  | O => Some ([], l)
  | S n' =>
      match l with
      | JString s :: l' =>
          '(ss, rest) ← strings_of n' l';
          Some (s :: ss, rest)
      | _ => None
      end
  end.

(** The string with index [i]. *)
Definition string_at (strs : list string) (i : Z) : option string :=
  if i <? 0 then None else strs !! Z.to_nat i.

(** The [n] index pairs at the head of a payload, looked up in [strs]. *)
Fixpoint pairs_of (strs : list string) (n : nat) (l : list JValue)
    : option (list (string * string) * list JValue) :=
  match n with
  | O => Some ([], l)
  | S n' =>
      match l with
      | JInt k :: JInt v :: l' =>
          key ← string_at strs k;
          val ← string_at strs v;
          '(ps, rest) ← pairs_of strs n' l';
          Some ((key, val) :: ps, rest)
      | _ => None
      end
  end.

(** The records of a payload, at most [fuel] of them. *)
Fixpoint entries_of (strs : list string) (fuel : nat) (l : list JValue)
    : option (list Entry) :=
  match l with
  | [] => Some []
  | JInt count :: l' =>
      match fuel with
      | O => None
      | S fuel' =>
          '(ps, rest) ← pairs_of strs (Z.to_nat count) l';
          match rest with
          | JInt o :: JDouble v :: rest' =>
              es ← entries_of strs fuel' rest';
              Some (mkEntry ps o v :: es)
          | _ => None
          end
      end
  | _ => None
  end.

(** A document read back: the string table, then the records. *)
Definition decode (doc : list JValue) : option (list Entry) :=
  match doc with
  | JInt n :: l =>
      '(strs, rest) ← strings_of (Z.to_nat n) l;
      entries_of strs (length rest) rest
  | _ => None
  end.

(** What the record of a measurement with op code [code] is to say. *)
Definition entry (cfg : Config) (code : Z) (m : Measurement) : Entry :=
  mkEntry (map_to_list (common_tags cfg) ++ map_to_list (GetTags (id m))
           ++ [("name"%string, Name (id m))])
          code (value m).

(** The entries of the measurements of a batch that have an op code. *)
Definition entries (cfg : Config) (batch : list Measurement) : list Entry :=
  omap (λ m, code ← Wire.op_code (GetTags (id m)); Some (entry cfg code m)) batch.

End Decode.

(** ** The log of a send cycle *)

Module Accounting.

(** The error lines of the batches whose status is not 200, in order. *)
Fixpoint error_lines (http_codes batch_sizes : list Z) : list LogEntry :=
  match http_codes, batch_sizes with
  | http_code :: codes, size :: sizes =>
      (if http_code =? 200 then []
       else [mkLog error "Unable to send batch of {} measurements to publish: {}"
                   [size; http_code]])
      ++ error_lines codes sizes
  | _, _ => []
  end.

End Accounting.

(** ** Sample inputs *)

Module Sample.

(** A MaxGauge [queueSize] and the updates 5, 2, 9. *)
Definition queueSize : Id := mkId "queueSize" ∅.
Definition updates : list Double.double :=
  [Double.of_Z 5; Double.of_Z 2; Double.of_Z 9].


(** A configuration with one common tag and batch size 2, and three
    measurements: a count, a max, and one without a statistic tag. *)
Definition cfg : Config :=
  mkConfig "http://localhost:8080/publish"
           {[ "nf.app"%string := "www"%string ]} 0 0 2.
Definition requests : Measurement :=
  mkMeasurement (mkId "requests" {[ "statistic"%string := "count"%string ]})
                (Double.of_Z 3).
Definition queue : Measurement :=
  mkMeasurement (WithStat queueSize "max") (Double.of_Z 9).
Definition untagged : Measurement :=
  mkMeasurement (mkId "foo" ∅) (Double.of_Z 1).

(** The same configuration with batch size 0 and with batch size -1. *)
Definition cfg_zero : Config :=
  mkConfig (uri cfg) (common_tags cfg) (read_timeout cfg) (connect_timeout cfg) 0.
Definition cfg_negative : Config :=
  mkConfig (uri cfg) (common_tags cfg) (read_timeout cfg) (connect_timeout cfg) (-1).

(** The same configuration without an endpoint, and with a connect timeout
    of 3 and a read timeout of 5 seconds. *)
Definition cfg_no_uri : Config :=
  mkConfig EmptyString (common_tags cfg) (read_timeout cfg) (connect_timeout cfg)
           (batch_size cfg).
Definition cfg_timeouts : Config :=
  mkConfig (uri cfg) (common_tags cfg) 5 3 (batch_size cfg).

(** A registry whose other meters are MaxGauges: the sent counter of the
    publisher at 5 from the cycle before, a counter [requests] at 3 and the
    gauge [queueSize] at 9; and the same registry with every meter idle. *)
Definition requests_id : Id := mkId "requests" ∅.
Definition registry : Registry.t MaxGauge.t :=
  Registry.mk cfg
    (<[Counters.sent := Registry.IsCounter (Counter.mk Counters.sent 5)]>
       (<[requests_id := Registry.IsCounter (Counter.mk requests_id 3)]>
          {[ queueSize := Registry.IsOther (MaxGauge.mk queueSize (Double.of_Z 9)) ]})).
Definition registry_idle : Registry.t MaxGauge.t :=
  Registry.mk cfg
    (<[Counters.sent := Registry.IsCounter (Counter.new Counters.sent)]>
       {[ queueSize := Registry.IsOther (MaxGauge.new queueSize) ]}).

(** A transport that answers the batches 200, 503, 200, 503, ... *)
Definition answers (client : Publisher.HttpClient) (uri : string)
    (docs : list (list JValue)) : list Z :=
  imap (λ i _, if Nat.even i then 200 else 503) docs.

(** Publishers of registries of two types. *)
Definition two_types : list (string * Config) :=
  [("Registry<A>"%string, cfg); ("Registry<B>"%string, cfg);
   ("Registry<A>"%string, cfg)].

End Sample.

(** * Properties *)

(** ** Comparison of doubles *)

Section double_order.

Local Ltac by_cases :=
  unfold SFeqb, SFltb, SFcompare; intros;
  repeat match goal with
         | x : spec_float |- _ => destruct x
         | s : bool |- _ => destruct s
         end;
  simpl in *; try congruence;
  repeat match goal with
         | H : context [Z.compare ?x ?y] |- _ => destruct (Z.compare_spec x y)
         | |- context [Z.compare ?x ?y] => destruct (Z.compare_spec x y)
         | H : context [Pos.compare_cont Eq ?x ?y] |- _ =>
             change (Pos.compare_cont Eq x y) with (Pos.compare x y) in *;
             destruct (Pos.compare_spec x y)
         | |- context [Pos.compare_cont Eq ?x ?y] =>
             change (Pos.compare_cont Eq x y) with (Pos.compare x y) in *;
             destruct (Pos.compare_spec x y)
         end;
  simpl in *; try congruence; try lia.

Lemma SFltb_irrefl a : SFltb a a = false.
Proof. by_cases. Qed.

Lemma SFltb_trans a b c :
  SFltb a b = true → SFltb b c = true → SFltb a c = true.
Proof. revert a b c. by_cases. Qed.

(** If [b] is above [a] and [c] is not, then [c] is not above [b]. *)
Lemma SFltb_above a b c :
  SFltb a b = true → SFltb a c = false → SFltb b c = false.
Proof. revert a b c. by_cases. Qed.

Lemma SFltb_not_eqb a b : SFltb a b = true → SFeqb b a = false.
Proof. revert a b. by_cases. Qed.

End double_order.

(** ** MaxGauge *)

Section max_gauge.

Import MaxGauge.

Lemma update_max_cases cur v :
  (update_max cur v = cur ∧ SFltb cur v = false) ∨
  (update_max cur v = v ∧ SFltb cur v = true).
Proof.
  unfold update_max, Double.gt. destruct (SFltb cur v); auto.
Qed.

(** The value stored after a sequence of updates is the start value or one
    of the values passed, nothing passed is above it, and it is the start
    value or above it. *)
Lemma running_max cur vs :
  (foldl update_max cur vs = cur ∨ foldl update_max cur vs ∈ vs) ∧
  (∀ v, v ∈ vs → SFltb (foldl update_max cur vs) v = false) ∧
  (foldl update_max cur vs = cur ∨ SFltb cur (foldl update_max cur vs) = true).
Proof.
  revert cur. induction vs as [|v vs IH]; intros cur; simpl.
  { split_and!; auto. intros v Hv. by apply elem_of_nil in Hv. }
  destruct (IH (update_max cur v)) as (Hin & Hmax & Hmono).
  destruct (update_max_cases cur v) as [[Heq Hlt] | [Heq Hlt]];
    rewrite Heq in *; clear Heq.
  - split_and!.
    + destruct Hin; [by left | right; by constructor].
    + intros w [-> | Hw]%elem_of_cons; [|by apply Hmax].
      destruct Hmono as [-> | Hmono]; [done|].
      by apply (SFltb_above cur).
    + done.
  - split_and!.
    + destruct Hin as [-> | Hin]; right; [left | by constructor].
    + intros w [-> | Hw]%elem_of_cons; [|by apply Hmax].
      destruct Hmono as [-> | Hmono]; [apply SFltb_irrefl|].
      apply (SFltb_above v); [done|apply SFltb_irrefl].
    + right. destruct Hmono as [-> | Hmono]; [done|].
      by apply (SFltb_trans cur v).
Qed.

Lemma Updates_id g vs : id_ (Updates g vs) = id_ g.
Proof.
  unfold Updates. revert g. induction vs as [|v vs IH]; intros g; simpl; [done|].
  by rewrite IH.
Qed.

Lemma Updates_value g vs :
  value_ (Updates g vs) = foldl update_max (value_ g) vs.
Proof.
  unfold Updates. revert g. induction vs as [|v vs IH]; intros g; simpl; [done|].
  by rewrite IH.
Qed.

Lemma Measure_resets g : (Measure g).1 = mk (id_ g) kMinValue.
Proof. unfold Measure. by destruct (Double.eqb _ _). Qed.

Lemma Measure_idle g : value_ g = kMinValue → (Measure g).2 = [].
Proof. unfold Measure. by intros ->. Qed.

(** C1, as the code has it: [Update] keeps the running maximum of the values
    passed since the gauge was last at its sentinel (new, or just
    measured).  [Measure] leaves the sentinel behind.  If one of the values
    passed is greater than the sentinel, [Measure] returns exactly one
    measurement: its identity is the gauge's with the tag statistic = max,
    and its value is one of the values passed with none of them greater.
    If none is greater than the sentinel (no update at all, or only the
    sentinel itself, minus infinity or NaN), [Measure] returns the empty
    sequence.  A [Measure] right after a [Measure] returns the empty
    sequence. *)
Theorem MaxGauge_measure (g : t) (vs : list Double.double) :
  value_ g = kMinValue →
  (Measure (Updates g vs)).1 = mk (id_ g) kMinValue ∧
  (Exists (λ v, Double.gt v kMinValue = true) vs →
     ∃ m, (Measure (Updates g vs)).2 = [m] ∧
          id m = WithStat (id_ g) "max" ∧
          GetTags (id m) !! "statistic"%string = Some "max"%string ∧
          value m ∈ vs ∧
          ∀ v, v ∈ vs → Double.gt v (value m) = false) ∧
  (¬ Exists (λ v, Double.gt v kMinValue = true) vs →
     (Measure (Updates g vs)).2 = []) ∧
  (Measure (Measure (Updates g vs)).1).2 = [].
Proof.
  intros Hg.
  pose proof (running_max (value_ g) vs) as (Hin & Hmax & Hmono).
  rewrite <- Updates_value in Hin, Hmax, Hmono. rewrite Hg in Hin, Hmono.
  split_and!.
  - by rewrite Measure_resets, Updates_id.
  - intros (v & Hv & Hgt)%Exists_exists. unfold Double.gt in Hgt.
    assert (SFltb kMinValue (value_ (Updates g vs)) = true) as Habove.
    { destruct Hmono as [Heq | ?]; [|done].
      specialize (Hmax v Hv). rewrite Heq in Hmax. congruence. }
    exists (mkMeasurement (WithStat (id_ g) "max") (value_ (Updates g vs))).
    unfold Measure, Double.eqb. rewrite (SFltb_not_eqb _ _ Habove), Updates_id.
    simpl. split_and!; try done.
    + by rewrite lookup_insert_eq.
    + destruct Hin as [Heq | ?]; [|done].
      rewrite Heq, SFltb_irrefl in Habove. discriminate.
  - intros Hnone. apply Measure_idle.
    destruct Hin as [? | Hin]; [done|].
    destruct Hmono as [? | Habove]; [done|].
    destruct Hnone. apply Exists_exists. eauto.
  - apply Measure_idle. by rewrite Measure_resets.
Qed.

End max_gauge.


Lemma MaxGauge_measure_witness :
  MaxGauge.value_ (MaxGauge.new Sample.queueSize) = MaxGauge.kMinValue ∧
  ∃ m, (MaxGauge.Measure
          (MaxGauge.Updates (MaxGauge.new Sample.queueSize) Sample.updates)).2 = [m] ∧
       value m ∈ Sample.updates.
Proof.
  split; [reflexivity|].
  destruct (MaxGauge_measure (MaxGauge.new Sample.queueSize) Sample.updates eq_refl)
    as (_ & Hsome & _).
  destruct Hsome as (m & Hm & _ & _ & Hin & _).
  - apply Exists_cons_hd. reflexivity.
  - exists m. by split.
Defined.

(** Scenario B: after [Update(5)], [Update(2)], [Update(9)], [Measure]
    returns the value 9 with statistic = max, and the next [Measure] returns
    nothing. *)
Example MaxGauge_scenario_B :
  let g := MaxGauge.Updates (MaxGauge.new Sample.queueSize) Sample.updates in
  (MaxGauge.Measure g).2
    = [mkMeasurement (WithStat Sample.queueSize "max") (Double.of_Z 9)] ∧
  (MaxGauge.Measure (MaxGauge.Measure g).1).2 = [].
Proof. split; reflexivity. Qed.

(** C1 does not hold as stated: an update that passes the sentinel itself
    (or minus infinity, or NaN) is an update, yet the [Measure] that follows
    returns no measurement. *)
Lemma MaxGauge_sentinel_update_unreported :
  (MaxGauge.Measure
     (MaxGauge.Update (MaxGauge.new Sample.queueSize) MaxGauge.kMinValue)).2 = [] ∧
  (MaxGauge.Measure
     (MaxGauge.Update (MaxGauge.new Sample.queueSize) Double.neg_infinity)).2 = [] ∧
  (MaxGauge.Measure
     (MaxGauge.Update (MaxGauge.new Sample.queueSize) Double.nan)).2 = [].
Proof. repeat split; reflexivity. Qed.

(** ** The string table *)

Section str_table.

Import Publisher Wire.

Lemma dom_note_tag (strings : gmap string Z) tag s :
  s ∈ dom (note_tag strings tag) ↔ s = tag.1 ∨ s = tag.2 ∨ s ∈ dom strings.
Proof. unfold note_tag. rewrite !dom_insert_L. set_solver. Qed.

Lemma dom_note_tags (strings : gmap string Z) tags s :
  s ∈ dom (foldl note_tag strings tags) ↔
  s ∈ dom strings ∨ ∃ tag, tag ∈ tags ∧ (s = tag.1 ∨ s = tag.2).
Proof.
  revert strings. induction tags as [|tag tags IH]; intros strings; simpl.
  - set_solver.
  - rewrite IH, dom_note_tag. set_solver.
Qed.

Lemma in_tags_map_to_list (tags : Tags) s :
  (∃ tag, tag ∈ map_to_list tags ∧ (s = tag.1 ∨ s = tag.2)) ↔ in_tags tags s.
Proof.
  unfold in_tags. split.
  - intros ([k v] & Hin%elem_of_map_to_list & Hs). eauto.
  - intros (k & v & Hkv%elem_of_map_to_list & Hs). by exists (k, v).
Qed.

Lemma dom_note_measurement (strings : gmap string Z) m s :
  s ∈ dom (note_measurement strings m) ↔
  s ∈ dom strings ∨ s = Name (id m) ∨ in_tags (GetTags (id m)) s.
Proof.
  unfold note_measurement.
  rewrite dom_note_tags, in_tags_map_to_list, dom_insert_L. set_solver.
Qed.

Lemma dom_note_measurements (strings : gmap string Z) batch s :
  s ∈ dom (foldl note_measurement strings batch) ↔
  s ∈ dom strings ∨
  ∃ m, m ∈ batch ∧ (s = Name (id m) ∨ in_tags (GetTags (id m)) s).
Proof.
  revert strings. induction batch as [|m batch IH]; intros strings; simpl.
  - set_solver.
  - rewrite IH, dom_note_measurement. set_solver.
Qed.

Lemma dom_collect_strings cfg batch s :
  s ∈ dom (collect_strings cfg batch) ↔ referenced cfg batch s.
Proof.
  unfold collect_strings, referenced.
  rewrite dom_note_measurements, dom_insert_L, elem_of_union, elem_of_singleton.
  rewrite dom_note_tags, in_tags_map_to_list, dom_empty_L. set_solver.
Qed.

(** The sorted strings are the keys collected, each once. *)
Lemma sorted_strings_Permutation cfg batch :
  sorted_strings cfg batch ≡ₚ (map_to_list (collect_strings cfg batch)).*1.
Proof. apply merge_sort_Permutation. Qed.

Lemma sorted_strings_NoDup cfg batch : NoDup (sorted_strings cfg batch).
Proof.
  rewrite sorted_strings_Permutation. apply NoDup_fst_map_to_list.
Qed.

Lemma elem_of_sorted_strings cfg batch s :
  s ∈ sorted_strings cfg batch ↔ s ∈ dom (collect_strings cfg batch).
Proof.
  rewrite sorted_strings_Permutation, elem_of_dom, list_elem_of_fmap. split.
  - intros ([k v] & -> & Hkv%elem_of_map_to_list). by exists v.
  - intros [v Hv]. exists (s, v). split; [done|]. by apply elem_of_map_to_list.
Qed.

Lemma sorted_strings_ascending cfg batch :
  StronglySorted String.le (sorted_strings cfg batch).
Proof. apply StronglySorted_merge_sort; apply _. Qed.

Lemma length_sorted_strings cfg batch :
  length (sorted_strings cfg batch) = size (collect_strings cfg batch).
Proof.
  rewrite sorted_strings_Permutation, length_fmap. apply length_map_to_list.
Qed.

(** The index loop touches the strings of the list only, and gives the
    string at position [j] the index [i + j]. *)
Lemma assign_indices_other i l (strings : gmap string Z) s :
  s ∉ l → assign_indices i l strings !! s = strings !! s.
Proof.
  revert i strings. induction l as [|x l IH]; intros i strings Hs; simpl; [done|].
  apply not_elem_of_cons in Hs as [Hx Hl].
  rewrite IH by done. by apply lookup_insert_ne.
Qed.

Lemma assign_indices_lookup i l (strings : gmap string Z) j s :
  NoDup l → l !! j = Some s →
  assign_indices i l strings !! s = Some (Z.of_nat (i + j)).
Proof.
  revert i j strings. induction l as [|x l IH]; intros i j strings Hnd Hj; [done|].
  apply NoDup_cons in Hnd as [Hx Hnd]. destruct j as [|j]; simpl in *.
  - injection Hj as ->. rewrite assign_indices_other by done.
    rewrite lookup_insert_eq. do 2 f_equal. lia.
  - rewrite (IH (S i) j) by done. do 2 f_equal. lia.
Qed.

Lemma dom_assign_indices i l (strings : gmap string Z) :
  (∀ s, s ∈ l → s ∈ dom strings) → dom (assign_indices i l strings) = dom strings.
Proof.
  revert i strings. induction l as [|x l IH]; intros i strings Hl; simpl; [done|].
  rewrite IH.
  - rewrite dom_insert_L.
    assert (x ∈ dom strings) by (apply Hl; by left). set_solver.
  - intros s Hs. rewrite dom_insert_L. apply elem_of_union_r, Hl. by right.
Qed.

(** In a list that ascends without repetition, the position of a string is
    its rank. *)
Lemma String_le_not_ltb x y : String.le x y → ¬ String.ltb y x.
Proof.
  unfold String.le, String.leb, String.ltb. rewrite (String.compare_antisym x y).
  destruct (String.compare y x); simpl; tauto.
Qed.

Lemma String_le_ne_ltb x y : String.le x y → x ≠ y → String.ltb x y.
Proof.
  unfold String.le, String.leb, String.ltb. intros Hle Hne.
  destruct (String.compare x y) eqn:Hc; simpl in *; try tauto.
  by apply String.compare_eq_iff in Hc.
Qed.

Lemma filter_none {A} (P : A → Prop) `{∀ x, Decision (P x)} (l : list A) :
  (∀ x, x ∈ l → ¬ P x) → filter P l = [].
Proof.
  induction l as [|x l IH]; intros Hl; [done|].
  rewrite filter_cons_False by (apply Hl; by left).
  apply IH. intros y Hy. apply Hl. by right.
Qed.

Lemma rank_position l j s :
  StronglySorted String.le l → NoDup l → l !! j = Some s →
  rank l s = Z.of_nat j.
Proof.
  unfold rank. intros Hsorted. revert j.
  induction Hsorted as [|x l Hsorted IH Hall]; intros j Hnd Hj; [done|].
  apply NoDup_cons in Hnd as [Hx Hnd]. rewrite Forall_forall in Hall.
  destruct j as [|j]; simpl in Hj.
  - injection Hj as ->. f_equal.
    rewrite filter_cons_False by (apply String_le_not_ltb; done).
    rewrite filter_none; [done|].
    intros y Hy. by apply String_le_not_ltb, Hall.
  - assert (s ∈ l) as Hs by (by eapply list_elem_of_lookup_2).
    rewrite filter_cons_True.
    + specialize (IH j Hnd Hj). simpl length. lia.
    + apply String_le_ne_ltb; [by apply Hall|]. by intros ->.
Qed.

Lemma build_str_table_payload cfg payload batch :
  (build_str_table cfg payload batch).1
  = payload ++ JInt (Z.of_nat (length (sorted_strings cfg batch)))
               :: (JString <$> sorted_strings cfg batch).
Proof.
  unfold build_str_table. simpl. rewrite <- app_assoc. simpl. do 3 f_equal.
  rewrite length_sorted_strings, <- !size_dom.
  rewrite dom_assign_indices; [done|].
  intros s. apply elem_of_sorted_strings.
Qed.

Lemma build_str_table_dom cfg payload batch :
  dom (build_str_table cfg payload batch).2 = dom (collect_strings cfg batch).
Proof.
  unfold build_str_table. simpl.
  apply dom_assign_indices. intros s. apply elem_of_sorted_strings.
Qed.

Lemma build_str_table_position cfg payload batch j s :
  sorted_strings cfg batch !! j = Some s →
  (build_str_table cfg payload batch).2 !! s = Some (Z.of_nat j).
Proof.
  intros Hj. unfold build_str_table. simpl.
  by apply (assign_indices_lookup 0), Hj; apply sorted_strings_NoDup.
Qed.

(** The table maps each of its strings to its rank. *)
Lemma build_str_table_rank cfg payload batch s :
  s ∈ sorted_strings cfg batch →
  (build_str_table cfg payload batch).2 !! s
  = Some (rank (sorted_strings cfg batch) s).
Proof.
  intros [j Hj]%list_elem_of_lookup_1.
  rewrite (build_str_table_position _ _ _ j) by done. f_equal. symmetry.
  apply rank_position;
    auto using sorted_strings_ascending, sorted_strings_NoDup.
Qed.

(** C2: the strings of the table [build_str_table] returns are exactly the
    strings the batch refers to (keys and values of the common tags, the
    literal [name], the name and the tag keys and values of every
    measurement); the list pushed to the payload holds each of them once, in
    ascending order; the table gives a string the index [j] exactly when it
    stands at position [j] of that list, which is its rank; and the payload
    grows by the count, which is the size of the table, followed by the
    strings in that order. *)
Theorem build_str_table_correct cfg payload batch :
  (∀ s, s ∈ dom (build_str_table cfg payload batch).2 ↔ referenced cfg batch s) ∧
  (∀ s, s ∈ sorted_strings cfg batch ↔ referenced cfg batch s) ∧
  NoDup (sorted_strings cfg batch) ∧
  StronglySorted String.le (sorted_strings cfg batch) ∧
  (∀ s i, (build_str_table cfg payload batch).2 !! s = Some i ↔
          ∃ j, i = Z.of_nat j ∧ sorted_strings cfg batch !! j = Some s) ∧
  (∀ s i, (build_str_table cfg payload batch).2 !! s = Some i →
          i = rank (sorted_strings cfg batch) s) ∧
  (build_str_table cfg payload batch).1
  = payload ++ JInt (Z.of_nat (length (sorted_strings cfg batch)))
               :: (JString <$> sorted_strings cfg batch) ∧
  Z.of_nat (length (sorted_strings cfg batch))
  = Z.of_nat (size (build_str_table cfg payload batch).2).
Proof.
  assert (∀ s, is_Some ((build_str_table cfg payload batch).2 !! s) →
               s ∈ sorted_strings cfg batch) as Hdom.
  { intros s Hs%elem_of_dom.
    by rewrite build_str_table_dom, <- elem_of_sorted_strings in Hs. }
  split_and!.
  - intros s. by rewrite build_str_table_dom, dom_collect_strings.
  - intros s. by rewrite elem_of_sorted_strings, dom_collect_strings.
  - apply sorted_strings_NoDup.
  - apply sorted_strings_ascending.
  - intros s i. split.
    + intros Hi. destruct (list_elem_of_lookup_1 _ s (Hdom s (mk_is_Some _ _ Hi)))
        as [j Hj].
      exists j. split; [|done].
      rewrite (build_str_table_position _ _ _ j) in Hi by done. congruence.
    + intros (j & -> & Hj). by apply build_str_table_position.
  - intros s i Hi.
    rewrite build_str_table_rank in Hi by (apply Hdom; eauto). congruence.
  - apply build_str_table_payload.
  - by rewrite length_sorted_strings, <- !size_dom, build_str_table_dom.
Qed.

End str_table.

(** ** Measurement records *)

Section records.

Import Publisher Wire.

(** [op_from_tags] recognizes exactly the statistics of the two lists. *)
Lemma op_from_tags_op_code tags :
  op_code tags = match op_from_tags tags with
                 | Unknown => None
                 | op => Some (op_num op)
                 end.
Proof.
  unfold op_code, op_from_tags, Tags_at.
  destruct (tags !! "statistic"%string) as [stat|]; simpl; [|done].
  repeat match goal with
         | |- context [String.eqb stat ?s] =>
             destruct (String.eqb_spec stat s) as [->|?]; [done|]
         end.
  simpl. unfold add_statistics, max_statistics.
  rewrite !decide_False; [done|..]; rewrite !elem_of_cons, elem_of_nil; tauto.
Qed.

Lemma add_tags_loop_indices idx payload (strings : gmap string Z) tags :
  (∀ tag, tag ∈ tags →
          strings !! tag.1 = Some (idx tag.1) ∧ strings !! tag.2 = Some (idx tag.2)) →
  add_tags_loop payload strings tags
  = Some (payload ++ flat_map (λ tag : string * string,
                                 [JInt (idx tag.1); JInt (idx tag.2)]) tags).
Proof.
  revert payload. induction tags as [|tag tags IH]; intros payload Hall; simpl.
  - by rewrite app_nil_r.
  - destruct (Hall tag) as [-> ->]; [by left|]. simpl.
    rewrite IH, <- app_assoc; [done|]. intros t Ht. apply Hall. by right.
Qed.

Lemma add_tags_indices idx payload (strings : gmap string Z) (tags : Tags) :
  (∀ s, in_tags tags s → strings !! s = Some (idx s)) →
  add_tags payload strings tags = Some (payload ++ tag_indices idx tags).
Proof.
  intros Hall. apply add_tags_loop_indices.
  intros [k v] Hkv%elem_of_map_to_list. split; apply Hall; exists k, v; auto.
Qed.

Lemma append_measurement_indices idx cfg batch payload (strings : gmap string Z) m :
  (∀ s, referenced cfg batch s → strings !! s = Some (idx s)) →
  m ∈ batch →
  append_measurement cfg payload strings m
  = Some (payload ++ match op_code (GetTags (id m)) with
                     | Some code => record idx cfg code m
                     | None => []
                     end).
Proof.
  intros Hidx Hm. unfold append_measurement. rewrite op_from_tags_op_code.
  assert (∀ p, add_tags p strings (common_tags cfg)
               = Some (p ++ tag_indices idx (common_tags cfg))) as Hcommon.
  { intros p. apply add_tags_indices. intros s Hs. apply Hidx. by left. }
  assert (∀ p, add_tags p strings (GetTags (id m))
               = Some (p ++ tag_indices idx (GetTags (id m)))) as Htags.
  { intros p. apply add_tags_indices. intros s Hs. apply Hidx.
    right; right. exists m. auto. }
  assert (strings !! "name"%string = Some (idx "name"%string)) as Hname.
  { apply Hidx. right; by left. }
  assert (strings !! Name (id m) = Some (idx (Name (id m)))) as Hvalue.
  { apply Hidx. right; right. exists m. auto. }
  destruct (op_from_tags (GetTags (id m))); [by rewrite app_nil_r|..];
    rewrite Hcommon; simpl; rewrite Htags; simpl; rewrite Hname, Hvalue; simpl;
    unfold record; by rewrite <- !app_assoc.
Qed.

Lemma append_measurements_indices idx cfg batch payload (strings : gmap string Z) ms :
  (∀ s, referenced cfg batch s → strings !! s = Some (idx s)) →
  (∀ m, m ∈ ms → m ∈ batch) →
  append_measurements cfg payload strings ms
  = Some (payload ++ records idx cfg ms).
Proof.
  intros Hidx. revert payload.
  induction ms as [|m ms IH]; intros payload Hms; simpl.
  - by rewrite app_nil_r.
  - rewrite (append_measurement_indices idx cfg batch) by (auto; apply Hms; by left).
    simpl. rewrite IH by (intros m' Hm'; apply Hms; by right).
    by rewrite <- app_assoc.
Qed.

(** The table of a batch gives every string the batch refers to its rank. *)
Lemma build_str_table_referenced cfg payload batch s :
  referenced cfg batch s →
  (build_str_table cfg payload batch).2 !! s
  = Some (rank (sorted_strings cfg batch) s).
Proof.
  intros Hs. apply build_str_table_rank.
  by rewrite elem_of_sorted_strings, dom_collect_strings.
Qed.

(** The document of a batch: the count, the sorted strings, and the records
    of the measurements that have an op code, in the order of the batch.
    [added] is the number of measurements of the batch. *)
Lemma measurements_to_json_encode cfg batch :
  measurements_to_json cfg batch
  = Some (JInt (Z.of_nat (length (sorted_strings cfg batch)))
            :: (JString <$> sorted_strings cfg batch)
            ++ records (rank (sorted_strings cfg batch)) cfg batch,
          Z.of_nat (length batch)).
Proof.
  unfold measurements_to_json.
  pose proof (build_str_table_payload cfg [] batch) as Hpayload.
  pose proof (λ s, build_str_table_referenced cfg [] batch s) as Hidx.
  destruct (build_str_table cfg [] batch) as [payload strings]. simpl in *.
  rewrite (append_measurements_indices _ cfg batch) by eauto.
  simpl. by rewrite Hpayload.
Qed.

Lemma rank_is_index cfg batch s :
  referenced cfg batch s →
  sorted_strings cfg batch !! Z.to_nat (rank (sorted_strings cfg batch) s) = Some s.
Proof.
  rewrite <- dom_collect_strings, <- elem_of_sorted_strings.
  intros [j Hj]%list_elem_of_lookup_1.
  rewrite (rank_position _ j), Nat2Z.id;
    auto using sorted_strings_ascending, sorted_strings_NoDup.
Qed.

Lemma unrecognized_op_code tags : unrecognized tags ↔ op_code tags = None.
Proof.
  unfold unrecognized, op_code. destruct (tags !! "statistic"%string) as [stat|].
  - repeat case_decide; split; try done; intros Hun.
    + by destruct (Hun stat eq_refl).
    + by destruct (Hun stat eq_refl).
    + by intros ? [= <-].
  - split; [done|]. by intros _ stat [=].
Qed.

(** C4: for a measurement of the batch whose statistic tag is one of the Add
    statistics (count, totalAmount, totalTime, totalOfSquares, percentile) or
    one of the Max statistics (max, gauge, activeTasks, duration),
    [append_measurement] appends exactly
    [tagCount, (keyIdx, valIdx) of each common tag, (keyIdx, valIdx) of each
     identity tag, nameKeyIdx, nameValueIdx, opCode, value]
    with [tagCount = |identity tags| + 1 + |common tags|], op code 0 for Add
    and 10 for Max, and every index the index of its string in the string
    table of the batch. *)
Theorem append_measurement_record cfg batch payload payload0 m stat :
  m ∈ batch →
  GetTags (id m) !! "statistic"%string = Some stat →
  stat ∈ add_statistics ∨ stat ∈ max_statistics →
  ∃ code,
    (stat ∈ add_statistics → code = 0) ∧
    (stat ∈ max_statistics → code = 10) ∧
    append_measurement cfg payload (build_str_table cfg payload0 batch).2 m
    = Some (payload ++
            [JInt (Z.of_nat (size (GetTags (id m))) + 1
                   + Z.of_nat (size (common_tags cfg)))]
            ++ tag_indices (rank (sorted_strings cfg batch)) (common_tags cfg)
            ++ tag_indices (rank (sorted_strings cfg batch)) (GetTags (id m))
            ++ [JInt (rank (sorted_strings cfg batch) "name");
                JInt (rank (sorted_strings cfg batch) (Name (id m)));
                JInt code; JDouble (value m)]) ∧
    ∀ s, referenced cfg batch s →
         (build_str_table cfg payload0 batch).2 !! s
         = Some (rank (sorted_strings cfg batch) s) ∧
         sorted_strings cfg batch !! Z.to_nat (rank (sorted_strings cfg batch) s)
         = Some s.
Proof.
  intros Hm Hstat Hrec.
  pose proof (append_measurement_indices (rank (sorted_strings cfg batch))
                cfg batch payload (build_str_table cfg payload0 batch).2 m
                (build_str_table_referenced cfg payload0 batch) Hm) as Happ.
  unfold op_code in Happ. rewrite Hstat in Happ.
  exists (if decide (stat ∈ add_statistics) then 0 else 10).
  split_and!.
  - intros ?. by rewrite decide_True.
  - intros Hmax. rewrite decide_False; [done|]. revert Hmax.
    unfold add_statistics, max_statistics.
    rewrite !elem_of_cons, !elem_of_nil. intros Hmax Hadd.
    repeat destruct Hmax as [-> | Hmax]; try done;
      repeat destruct Hadd as [? | Hadd]; done.
  - rewrite Happ. do 2 f_equal. case_decide; [done|].
    rewrite decide_True; [done|]. by destruct Hrec.
  - intros s Hs. split; [by apply build_str_table_referenced|by apply rank_is_index].
Qed.

(** C3, as the code has it: a measurement whose statistic tag is missing or
    not recognized adds no record to the payload, and this is no error: the
    document of its batch is built, with the records of the other
    measurements.  Its name and its tag keys and values are in the string
    table of the batch all the same. *)
Theorem unrecognized_measurement cfg before m after :
  unrecognized (GetTags (id m)) →
  (∀ payload strings, append_measurement cfg payload strings m = Some payload) ∧
  measurements_to_json cfg (before ++ m :: after)
  = Some (JInt (Z.of_nat (length (sorted_strings cfg (before ++ m :: after))))
            :: (JString <$> sorted_strings cfg (before ++ m :: after))
            ++ records (rank (sorted_strings cfg (before ++ m :: after))) cfg before
            ++ records (rank (sorted_strings cfg (before ++ m :: after))) cfg after,
          Z.of_nat (length (before ++ m :: after))) ∧
  Name (id m) ∈ sorted_strings cfg (before ++ m :: after) ∧
  ∀ s, in_tags (GetTags (id m)) s → s ∈ sorted_strings cfg (before ++ m :: after).
Proof.
  intros Hop%unrecognized_op_code.
  assert (m ∈ before ++ m :: after) as Hm by (apply elem_of_app; right; by left).
  split_and!.
  - intros payload strings. unfold append_measurement.
    rewrite op_from_tags_op_code in Hop.
    by destruct (op_from_tags (GetTags (id m))).
  - rewrite measurements_to_json_encode. do 3 f_equal.
    unfold records. rewrite flat_map_app. simpl. by rewrite Hop.
  - rewrite elem_of_sorted_strings, dom_collect_strings.
    right; right. exists m. auto.
  - intros s Hs. rewrite elem_of_sorted_strings, dom_collect_strings.
    right; right. exists m. auto.
Qed.

End records.

Lemma append_measurement_record_witness :
  Sample.requests ∈ [Sample.requests; Sample.untagged; Sample.queue] ∧
  GetTags (id Sample.requests) !! "statistic"%string = Some "count"%string ∧
  ∃ code,
    Publisher.append_measurement Sample.cfg []
      (Publisher.build_str_table Sample.cfg []
         [Sample.requests; Sample.untagged; Sample.queue]).2 Sample.requests
    = Some ([] ++ Wire.record
              (Wire.rank (Publisher.sorted_strings Sample.cfg
                            [Sample.requests; Sample.untagged; Sample.queue]))
              Sample.cfg code Sample.requests).
Proof.
  split; [by left|]. split; [reflexivity|].
  destruct (append_measurement_record Sample.cfg
              [Sample.requests; Sample.untagged; Sample.queue] [] []
              Sample.requests "count") as (code & _ & _ & Happ & _).
  - by left.
  - reflexivity.
  - left. by left.
  - exists code. exact Happ.
Defined.

(** The record of the sample count in a batch of three: 3 tags, the pairs
    (nf.app, www) and (statistic, count), (name, requests), op code 0 and
    the value 3. *)
Example append_measurement_sample :
  Publisher.measurements_to_json Sample.cfg
    [Sample.requests; Sample.untagged; Sample.queue]
  = Some ([JInt 9; JString "count"; JString "foo"; JString "max";
           JString "name"; JString "nf.app"; JString "queueSize";
           JString "requests"; JString "statistic"; JString "www";
           JInt 3; JInt 4; JInt 8; JInt 7; JInt 0; JInt 3; JInt 6; JInt 0;
           JDouble (Double.of_Z 3);
           JInt 3; JInt 4; JInt 8; JInt 7; JInt 2; JInt 3; JInt 5; JInt 10;
           JDouble (Double.of_Z 9)], 3).
Proof. vm_compute. reflexivity. Qed.

Lemma unrecognized_measurement_witness :
  Wire.unrecognized (GetTags (id Sample.untagged)) ∧
  Name (id Sample.untagged)
    ∈ Publisher.sorted_strings Sample.cfg [Sample.requests; Sample.untagged].
Proof.
  assert (Wire.unrecognized (GetTags (id Sample.untagged))) as Hun.
  { intros stat Hstat. vm_compute in Hstat. discriminate. }
  split; [exact Hun|].
  exact (proj1 (proj2 (proj2
    (unrecognized_measurement Sample.cfg [Sample.requests] Sample.untagged [] Hun)))).
Defined.

(** C3 does not hold as stated: a measurement without a statistic tag does
    contribute strings.  The string table of a batch that holds only such a
    measurement has its name, which the table of the empty batch has not. *)
Lemma unrecognized_measurement_strings :
  GetTags (id Sample.untagged) !! "statistic"%string = None ∧
  (Publisher.build_str_table Sample.cfg [] []).1
  = [JInt 3; JString "name"; JString "nf.app"; JString "www"] ∧
  (Publisher.build_str_table Sample.cfg [] [Sample.untagged]).1
  = [JInt 4; JString "foo"; JString "name"; JString "nf.app"; JString "www"] ∧
  (Publisher.build_str_table Sample.cfg [] [Sample.untagged]).2 !! "foo"%string
  = Some 0.
Proof. repeat split; vm_compute; reflexivity. Qed.

(** ** Batching *)

Section batching.

Import Publisher Wire.

Lemma measurements_to_json_document cfg batch :
  measurements_to_json cfg batch = Some (document cfg batch, Z.of_nat (length batch)).
Proof. apply measurements_to_json_encode. Qed.

(** One iteration with a non-negative [to_advance]. *)
Lemma loop_body_advance cfg st :
  from st ≠ [] → 0 ≤ to_advance (batch_size cfg) (from st) →
  loop_body cfg st
  = Continue
      (mkBatching
         (drop (Z.to_nat (to_advance (batch_size cfg) (from st))) (from st))
         (batches st
            ++ [document cfg
                  (take (Z.to_nat (to_advance (batch_size cfg) (from st))) (from st))])
         (batch_sizes st
            ++ [Z.of_nat (length
                  (take (Z.to_nat (to_advance (batch_size cfg) (from st))) (from st)))])).
Proof.
  intros Hne Hadv. unfold loop_body. destruct (from st) as [|m rest] eqn:Hfrom; [done|].
  rewrite (proj2 (Z.ltb_ge _ _)) by done.
  by rewrite measurements_to_json_document.
Qed.

Lemma ceil_div_zero b : 1 ≤ b → ceil_div 0 b = 0.
Proof. intros Hb. unfold ceil_div. apply Z.div_small. lia. Qed.

Lemma ceil_div_small n b : 0 < n ≤ b → ceil_div n b = 1.
Proof.
  intros Hn. unfold ceil_div.
  replace (n + b - 1) with ((n - 1) + 1 * b) by lia.
  rewrite Z.div_add by lia. rewrite Z.div_small; lia.
Qed.

Lemma ceil_div_step n b : 0 < b → ceil_div (n + b) b = ceil_div n b + 1.
Proof.
  intros Hb. unfold ceil_div.
  replace (n + b + b - 1) with ((n + b - 1) + 1 * b) by lia.
  by rewrite Z.div_add by lia.
Qed.

(** With a batch size of at least 1 the loop ends, within as many
    iterations as there are measurements, and has cut the range into
    consecutive parts. *)
Lemma batch_loop_partition cfg fuel st :
  1 ≤ batch_size cfg → (length (from st) ≤ fuel)%nat →
  ∃ parts,
    batch_loop fuel cfg st
    = Finished (mkBatching []
                  (batches st ++ (document cfg <$> parts))
                  (batch_sizes st ++ ((λ p, Z.of_nat (length p)) <$> parts))) ∧
    concat parts = from st ∧
    Z.of_nat (length parts) = ceil_div (Z.of_nat (length (from st))) (batch_size cfg) ∧
    ∀ i p, parts !! i = Some p →
           (0 < length p)%nat ∧ Z.of_nat (length p) ≤ batch_size cfg ∧
           ((S i < length parts)%nat → Z.of_nat (length p) = batch_size cfg).
Proof.
  intros HB. revert st. induction fuel as [|fuel IH]; intros [fr bs szs] Hfuel;
    cbn [from batches batch_sizes] in *.
  - destruct fr; [|simpl in *; lia].
    exists []. simpl. rewrite !app_nil_r, ceil_div_zero by done.
    split_and!; [done..|]. intros i p Hp. by rewrite lookup_nil in Hp.
  - destruct (decide (fr = [])) as [->|Hne].
    { exists []. simpl. rewrite !app_nil_r, ceil_div_zero by done.
      split_and!; [done..|]. intros i p Hp. by rewrite lookup_nil in Hp. }
    assert (0 < length fr)%nat as Hpos by (destruct fr; [done|simpl; lia]).
    cbn [batch_loop]. rewrite loop_body_advance by (unfold to_advance; simpl; (done || lia)).
    cbn [from batches batch_sizes].
    set (n := Z.to_nat (to_advance (batch_size cfg) fr)) in *.
    assert (1 ≤ n ≤ length fr)%nat as Hn by (subst n; unfold to_advance; lia).
    assert (length (take n fr) = n) as Htake by (rewrite length_take; lia).
    destruct (IH (mkBatching (drop n fr)
                    (bs ++ [document cfg (take n fr)])
                    (szs ++ [Z.of_nat (length (take n fr))])))
      as (parts & Hrun & Hcat & Hlen & Hparts).
    { cbn [from]. rewrite length_drop. lia. }
    cbn [from batches batch_sizes] in *. rewrite length_drop in Hlen.
    exists (take n fr :: parts). rewrite Hrun, <- !app_assoc.
    assert (Z.of_nat (length fr) ≤ batch_size cfg ∧ n = length fr ∧ parts = [] ∨
            batch_size cfg < Z.of_nat (length fr) ∧ Z.of_nat n = batch_size cfg)
      as Hcases.
    { destruct (decide (Z.of_nat (length fr) ≤ batch_size cfg)) as [Hle|Hgt].
      - left. assert (n = length fr) as Hn' by (subst n; unfold to_advance; lia).
        split_and!; [done..|].
        rewrite Hn', Nat.sub_diag, ceil_div_zero in Hlen by done.
        destruct parts; [done|simpl in Hlen; lia].
      - right. subst n. unfold to_advance. lia. }
    split_and!.
    + done.
    + simpl. by rewrite Hcat, take_drop.
    + destruct Hcases as [(Hle & Hn' & ->) | (Hgt & Hn')].
      * simpl. rewrite ceil_div_small by lia. lia.
      * replace (Z.of_nat (length fr))
          with (Z.of_nat (length fr - n) + batch_size cfg) by lia.
        rewrite ceil_div_step by lia. simpl length. lia.
    + intros [|i] p Hp; simpl in Hp.
      * injection Hp as <-. rewrite Htake. split_and!; [lia| |].
        { subst n. unfold to_advance. lia. }
        intros Hmore. destruct Hcases as [(Hle & Hn' & ->) | (Hgt & Hn')]; [|done].
        simpl in Hmore. lia.
      * destruct (Hparts i p Hp) as (? & ? & Hfull). split_and!; [done..|].
        intros Hmore. apply Hfull. simpl in Hmore. lia.
Qed.

(** With batch size 0 an iteration leaves the range as it is, so the loop
    never ends. *)
Lemma loop_body_zero cfg st :
  batch_size cfg = 0 → from st ≠ [] →
  loop_body cfg st
  = Continue (mkBatching (from st) (batches st ++ [document cfg []])
                         (batch_sizes st ++ [0])).
Proof.
  intros HB Hne.
  assert (to_advance (batch_size cfg) (from st) = 0) as Hadv
    by (unfold to_advance; lia).
  rewrite loop_body_advance by (done || lia). by rewrite Hadv.
Qed.

Lemma batch_loop_zero cfg fuel st :
  batch_size cfg = 0 → from st ≠ [] → batch_loop fuel cfg st = OutOfFuel.
Proof.
  intros HB. revert st. induction fuel as [|fuel IH]; intros st Hne; simpl;
    rewrite loop_body_zero by done; [done|].
  by apply IH.
Qed.

(** With a negative batch size the first iteration already leaves the
    defined behaviour. *)
Lemma batch_loop_negative cfg fuel st :
  batch_size cfg < 0 → from st ≠ [] → batch_loop fuel cfg st = Undefined.
Proof.
  intros HB Hne.
  assert (loop_body cfg st = Fault) as Hbody.
  { unfold loop_body. destruct (from st) as [|m rest]; [done|].
    rewrite (proj2 (Z.ltb_lt _ _)); [done|]. unfold to_advance. lia. }
  destruct fuel; simpl; by rewrite Hbody.
Qed.

(** C5, as the code has it: for a batch size [B] of at least 1, the loop of
    [send_metrics] ends and has cut the snapshot of [N] measurements into
    consecutive batches: their concatenation is the snapshot, there are
    [ceil(N / B)] of them, none is empty or larger than [B], and all but the
    last hold exactly [B] measurements.  Each batch has its document and
    its size recorded, in order. *)
Theorem send_metrics_batches cfg measurements fuel :
  1 ≤ batch_size cfg →
  (length measurements ≤ fuel)%nat →
  ∃ parts,
    batch_loop fuel cfg (mkBatching measurements [] [])
    = Finished (mkBatching [] (document cfg <$> parts)
                           ((λ p, Z.of_nat (length p)) <$> parts)) ∧
    concat parts = measurements ∧
    Z.of_nat (length parts)
    = ceil_div (Z.of_nat (length measurements)) (batch_size cfg) ∧
    ∀ i p, parts !! i = Some p →
           (0 < length p)%nat ∧ Z.of_nat (length p) ≤ batch_size cfg ∧
           ((S i < length parts)%nat → Z.of_nat (length p) = batch_size cfg).
Proof.
  intros HB Hfuel.
  by apply (batch_loop_partition cfg fuel (mkBatching measurements [] [])).
Qed.

(** C10, as the code has it: on a snapshot that is not empty the loop of
    [send_metrics] ends exactly when the batch size is at least 1.  With
    batch size 0, [to_advance] is 0, an iteration leaves the range as it is
    and the loop never ends.  With a negative batch size, [to_advance] is that
    negative number: [to] is put before [from], which is undefined. *)
Theorem batch_loop_needs_positive_batch_size cfg measurements :
  measurements ≠ [] →
  (1 ≤ batch_size cfg ↔
   ∃ fuel b, batch_loop fuel cfg (mkBatching measurements [] []) = Finished b) ∧
  (batch_size cfg = 0 →
   to_advance (batch_size cfg) measurements = 0 ∧
   (∀ st, from st = measurements →
          ∃ st', loop_body cfg st = Continue st' ∧ from st' = measurements) ∧
   ∀ fuel, batch_loop fuel cfg (mkBatching measurements [] []) = OutOfFuel) ∧
  (batch_size cfg < 0 →
   to_advance (batch_size cfg) measurements = batch_size cfg ∧
   ∀ fuel, batch_loop fuel cfg (mkBatching measurements [] []) = Undefined).
Proof.
  intros Hne. split_and!.
  - split.
    + intros HB.
      destruct (batch_loop_partition cfg (length measurements)
                  (mkBatching measurements [] []) HB) as (parts & Hrun & _); [done|].
      eauto.
    + intros (fuel & b & Hrun).
      destruct (Z.lt_trichotomy (batch_size cfg) 0) as [Hneg | [Hzero | Hpos]]; [| |lia].
      * by rewrite batch_loop_negative in Hrun.
      * by rewrite batch_loop_zero in Hrun.
  - intros HB. split_and!.
    + unfold to_advance. lia.
    + intros st Hst. rewrite loop_body_zero by (by rewrite ?Hst). eauto.
    + intros fuel. by apply batch_loop_zero.
  - intros HB. split.
    + unfold to_advance. lia.
    + intros fuel. by apply batch_loop_negative.
Qed.

End batching.

Lemma send_metrics_batches_witness :
  1 ≤ batch_size Sample.cfg ∧
  (length [Sample.requests; Sample.untagged; Sample.queue] ≤ 3)%nat ∧
  ∃ parts,
    Publisher.batch_loop 3 Sample.cfg
      (Publisher.mkBatching [Sample.requests; Sample.untagged; Sample.queue] [] [])
    = Finished (Publisher.mkBatching [] (Wire.document Sample.cfg <$> parts)
                  ((λ p, Z.of_nat (length p)) <$> parts)) ∧
    concat parts = [Sample.requests; Sample.untagged; Sample.queue].
Proof.
  split; [vm_compute; discriminate|]. split; [simpl; lia|].
  destruct (send_metrics_batches Sample.cfg
              [Sample.requests; Sample.untagged; Sample.queue] 3)
    as (parts & Hrun & Hcat & _).
  - vm_compute. discriminate.
  - simpl. lia.
  - exists parts. by split.
Defined.

(** Three measurements with batch size 2 make a batch of two and a batch of
    one. *)
Example send_metrics_batches_sample :
  Publisher.batch_sizes <$>
    (match Publisher.batch_loop 3 Sample.cfg
             (Publisher.mkBatching
                [Sample.requests; Sample.untagged; Sample.queue] [] []) with
     | Finished b => Some b
     | _ => None
     end)
  = Some [2; 1].
Proof. vm_compute. reflexivity. Qed.

(** C5 does not hold for every batch size: with batch size 0 and one
    measurement pending the loop yields no batches at all, however long it
    runs. *)
Lemma zero_batch_size_no_batches :
  ¬ ∃ fuel b,
      Publisher.batch_loop fuel Sample.cfg_zero
        (Publisher.mkBatching [Sample.requests] [] []) = Finished b.
Proof.
  intros (fuel & b & Hrun). by rewrite batch_loop_zero in Hrun.
Qed.

Lemma batch_loop_needs_positive_batch_size_witness :
  [Sample.requests] ≠ [] ∧
  ∀ fuel,
    Publisher.batch_loop fuel Sample.cfg_zero
      (Publisher.mkBatching [Sample.requests] [] []) = OutOfFuel.
Proof.
  split; [discriminate|].
  destruct (batch_loop_needs_positive_batch_size Sample.cfg_zero [Sample.requests])
    as (_ & Hzero & _); [discriminate|].
  destruct Hzero as (_ & _ & Hloop); [reflexivity|]. exact Hloop.
Defined.

(** C10 does not hold as stated for a negative batch size: [to_advance] is
    then not 0 but the batch size itself, and the iteration does not leave
    the range in place but hands [measurements_to_json] a range that ends
    before it starts. *)
Lemma negative_batch_size_moves_back :
  Publisher.to_advance (batch_size Sample.cfg_negative) [Sample.requests] = -1 ∧
  Publisher.loop_body Sample.cfg_negative
    (Publisher.mkBatching [Sample.requests] [] []) = Publisher.Fault.
Proof. split; vm_compute; reflexivity. Qed.

(** ** The snapshot of the registry *)

Section meter_store_fold.

Import MeterStore.

Context {Meter : Type}.
Variable Measure : Meter → Meter * list Measurement.

Lemma foldl_measure_one l (acc : gmap Id Meter) res :
  foldl (measure_one Measure) (acc, res) l
  = (foldl (λ a p, <[p.1 := (Measure p.2).1]> a) acc l,
     res ++ concat ((λ p, (Measure p.2).2) <$> l)).
Proof.
  revert acc res. induction l as [|p l IH]; intros acc res; simpl.
  - by rewrite app_nil_r.
  - unfold measure_one at 2. simpl. by rewrite IH, <- app_assoc.
Qed.

Lemma foldl_measured_other (l : list (Id * Meter)) (acc : gmap Id Meter) k :
  k ∉ l.*1 →
  foldl (λ a p, <[p.1 := (Measure p.2).1]> a) acc l !! k = acc !! k.
Proof.
  revert acc. induction l as [|p l IH]; intros acc Hk; simpl; [done|].
  rewrite fmap_cons in Hk. apply not_elem_of_cons in Hk as [Hp Hl].
  rewrite IH by done. by rewrite lookup_insert_ne.
Qed.

Lemma foldl_measured_in (l : list (Id * Meter)) (acc : gmap Id Meter) k m :
  NoDup l.*1 → (k, m) ∈ l →
  foldl (λ a p, <[p.1 := (Measure p.2).1]> a) acc l !! k = Some (Measure m).1.
Proof.
  revert acc. induction l as [|p l IH]; intros acc Hnd Hin; simpl.
  { by apply elem_of_nil in Hin. }
  rewrite fmap_cons in Hnd. apply NoDup_cons in Hnd as [Hp Hnd].
  apply elem_of_cons in Hin as [<- | Hin].
  - rewrite foldl_measured_other by done. by rewrite lookup_insert_eq.
  - by apply IH.
Qed.

Lemma Measurements_fmap (meters : gmap Id Meter) :
  Measurements Measure meters
  = ((λ m, (Measure m).1) <$> meters,
     concat ((λ p, (Measure p.2).2) <$> map_to_list meters)).
Proof.
  unfold Measurements. rewrite foldl_measure_one. simpl. f_equal.
  apply map_eq. intros k. rewrite lookup_fmap.
  destruct (meters !! k) as [m|] eqn:Hk; simpl.
  - apply foldl_measured_in; [apply NoDup_fst_map_to_list|].
    by apply elem_of_map_to_list.
  - rewrite foldl_measured_other; [done|].
    intros ([k' m] & -> & Hin%elem_of_map_to_list)%list_elem_of_fmap.
    simpl in Hk. congruence.
Qed.

End meter_store_fold.

Section registry_snapshot.

Context {Other : Type}.
Variable Measure_other : Other → Other * list Measurement.
Implicit Types r : Registry.t Other.

Lemma Measurements_meters r j :
  Registry.meters_ (Registry.Measurements Measure_other r).1 !! j
  = (λ m, (Registry.Measure Measure_other m).1) <$> Registry.meters_ r !! j.
Proof.
  unfold Registry.Measurements. cbn [fst Registry.meters_].
  rewrite Measurements_fmap. cbn [fst]. apply lookup_fmap.
Qed.

Lemma Measurements_snapshot r :
  (Registry.Measurements Measure_other r).2
  = concat ((λ p, (Registry.Measure Measure_other p.2).2)
              <$> map_to_list (Registry.meters_ r)).
Proof. unfold Registry.Measurements. cbn [snd]. by rewrite Measurements_fmap. Qed.

(** The snapshot leaves every counter at 0. *)
Lemma count_Measurements r j :
  Registry.count (Registry.Measurements Measure_other r).1 j = 0.
Proof.
  unfold Registry.count. rewrite Measurements_meters.
  by destruct (Registry.meters_ r !! j) as [[c|o]|].
Qed.

(** The snapshot does not change the kind of a meter. *)
Lemma free_Measurements r j :
  Registry.free r j → Registry.free (Registry.Measurements Measure_other r).1 j.
Proof.
  unfold Registry.free. intros Hfree o. rewrite Measurements_meters.
  destruct (Registry.meters_ r !! j) as [[c|o']|] eqn:Hj; simpl; try done.
  by destruct (Hfree o').
Qed.

Lemma elem_of_concat_part {A} (x : A) (l : list A) (ls : list (list A)) :
  l ∈ ls → x ∈ l → x ∈ concat ls.
Proof.
  intros Hl Hx. induction ls as [|l' ls IH]; simpl.
  - by apply elem_of_nil in Hl.
  - apply elem_of_app. apply elem_of_cons in Hl as [<-|Hl]; auto.
Qed.

(** A counter that is not at 0 is in the snapshot. *)
Lemma snapshot_empty_idle r j c :
  (Registry.Measurements Measure_other r).2 = [] →
  Registry.meters_ r !! j = Some (Registry.IsCounter c) →
  Counter.count_ c = 0.
Proof.
  rewrite Measurements_snapshot. intros Hnil Hj.
  apply elem_of_map_to_list in Hj.
  apply list_elem_of_lookup_1 in Hj as [n Hn].
  destruct (Z.eq_dec (Counter.count_ c) 0) as [|Hc]; [done|]. exfalso.
  assert (mkMeasurement (WithStat (Counter.id_ c) "count")
                        (Double.of_Z (Counter.count_ c))
          ∈ concat ((λ p, (Registry.Measure Measure_other p.2).2)
                      <$> map_to_list (Registry.meters_ r))) as Hin.
  { eapply elem_of_concat_part.
    - apply list_elem_of_fmap. eexists. split; [done|].
      by eapply list_elem_of_lookup_2.
    - cbn [snd Registry.Measure Counter.Measure].
      apply Z.eqb_neq in Hc. rewrite Hc. by apply list_elem_of_singleton. }
  rewrite Hnil in Hin. by apply elem_of_nil in Hin.
Qed.

End registry_snapshot.

(** ** Accounting for the batches sent *)

Section accounting.

Import Publisher Counters Accounting.

Context {Other : Type}.
Variable Measure_other : Other → Other * list Measurement.
Implicit Types r : Registry.t Other.

Lemma count_GetCounter_Add r i delta j :
  0 ≤ delta → Registry.free r i →
  Registry.count (Registry.GetCounter_Add r i delta) j
  = Registry.count r j + (if bool_decide (i = j) then delta else 0).
Proof.
  intros Hdelta%Z.leb_le Hfree.
  unfold Registry.GetCounter_Add, Registry.count.
  destruct (Registry.meters_ r !! i) as [[c|o]|] eqn:Hi.
  - cbn [Registry.meters_]. case_bool_decide as Hij.
    + subst j. rewrite lookup_insert_eq, Hi. unfold Counter.Add.
      by rewrite Hdelta.
    + rewrite lookup_insert_ne by done. lia.
  - by destruct (Hfree o).
  - cbn [Registry.meters_]. case_bool_decide as Hij.
    + subst j. rewrite lookup_insert_eq, Hi. unfold Counter.Add, Counter.new.
      by rewrite Hdelta.
    + rewrite lookup_insert_ne by done. lia.
Qed.

Lemma free_GetCounter_Add r i delta j :
  Registry.free r j → Registry.free (Registry.GetCounter_Add r i delta) j.
Proof.
  unfold Registry.free, Registry.GetCounter_Add. intros Hfree o.
  destruct (Registry.meters_ r !! i) as [[c|o']|] eqn:Hi; cbn [Registry.meters_];
    [|done|];
    (destruct (decide (i = j)) as [->|Hij];
     [by rewrite lookup_insert_eq|by rewrite lookup_insert_ne]).
Qed.

Lemma update_sent_counter r n : update_sent r n = Registry.GetCounter_Add r sent n.
Proof. done. Qed.

Lemma update_http_err_counter r code n :
  update_http_err r code n = Registry.GetCounter_Add r (err code) n.
Proof. done. Qed.

(** The tags of an error counter. *)
Lemma err_tags code :
  Name (err code) = "spectator.measurementsErr"%string ∧
  GetTags (err code) !! "error"%string = Some "httpError"%string ∧
  GetTags (err code) !! "statusCode"%string = Some (pretty code) ∧
  size (GetTags (err code)) = 2%nat.
Proof.
  unfold err. simpl. split_and!; [done| | |].
  - by rewrite lookup_insert_ne, lookup_singleton_eq.
  - by rewrite lookup_insert_eq.
  - rewrite map_size_insert_None, map_size_singleton; [done|].
    by rewrite lookup_singleton_ne.
Qed.

(** Different status codes have different error counters, and none of them
    is the sent counter. *)
Lemma err_inj code code' : err code = err code' → code = code'.
Proof.
  intros Heq. apply (inj (pretty : Z → string)).
  assert (GetTags (err code) !! "statusCode"%string
          = GetTags (err code') !! "statusCode"%string) as Htag by (by rewrite Heq).
  destruct (err_tags code) as (_ & _ & Hc & _).
  destruct (err_tags code') as (_ & _ & Hc' & _). congruence.
Qed.

Lemma err_not_sent code : err code ≠ sent.
Proof. intros Heq. by apply (f_equal Name) in Heq. Qed.

Lemma counter_for_sent code : bool_decide (counter_for code = sent) = (code =? 200).
Proof.
  unfold counter_for. destruct (Z.eqb_spec code 200).
  - by rewrite bool_decide_eq_true_2.
  - rewrite bool_decide_eq_false_2; [done|]. apply err_not_sent.
Qed.

Lemma counter_for_err code code' :
  code' ≠ 200 → bool_decide (counter_for code = err code') = (code =? code').
Proof.
  intros Hne. unfold counter_for. destruct (Z.eqb_spec code 200) as [->|H200].
  - rewrite bool_decide_eq_false_2 by (intros Heq; by apply (err_not_sent code')).
    symmetry. apply Z.eqb_neq. congruence.
  - destruct (Z.eqb_spec code code') as [->|Hcc].
    + by rewrite bool_decide_eq_true_2.
    + rewrite bool_decide_eq_false_2; [done|]. by intros ?%err_inj.
Qed.

Lemma accounted_ext P Q codes sizes :
  (∀ code, P code = Q code) → accounted P codes sizes = accounted Q codes sizes.
Proof.
  intros HPQ. revert sizes.
  induction codes as [|c codes IH]; intros [|n sizes]; simpl; try done.
  by rewrite HPQ, IH.
Qed.

Lemma accounted_none P codes sizes :
  (∀ code, P code = false) → accounted P codes sizes = 0.
Proof.
  intros HP. revert sizes.
  induction codes as [|c codes IH]; intros [|n sizes]; simpl; try done.
  by rewrite HP, IH.
Qed.

(** The loop of [send_metrics] over the status codes, from index [i] on. *)
Lemma account_from i http_codes batch_sizes (st : Registry.t Other * list LogEntry) :
  (length http_codes + i)%nat = length batch_sizes →
  Forall (λ n, 0 ≤ n) batch_sizes →
  (∀ code, Registry.free st.1 (counter_for code)) →
  ∃ st', account i http_codes batch_sizes st = Some st' ∧
         ∀ j, Registry.count st'.1 j
              = Registry.count st.1 j
                + accounted (λ code, bool_decide (counter_for code = j))
                            http_codes (drop i batch_sizes).
Proof.
  intros Hlen Hpos. revert i st Hlen.
  induction http_codes as [|code codes IH]; intros i st Hlen Hfree; simpl.
  - exists st. split; [done|]. intros j. lia.
  - simpl in Hlen.
    destruct (lookup_lt_is_Some_2 batch_sizes i) as [n Hn]; [lia|].
    rewrite Hn. simpl. rewrite (drop_S _ _ _ Hn). simpl.
    assert (0 ≤ n) as Hn0.
    { rewrite Forall_forall in Hpos. apply Hpos. by eapply list_elem_of_lookup_2. }
    assert (counter_for code = if code =? 200 then sent else err code) as Hfor
      by done.
    pose proof (Hfree code) as Hcode. rewrite Hfor in Hcode.
    match goal with
    | |- ∃ st', account _ _ _ ?s = _ ∧ _ =>
        destruct (IH (S i) s) as (st' & Hrun & Hcount); [lia| |]
    end.
    { intros code'. destruct (code =? 200); cbn [fst];
        rewrite ?update_sent_counter, ?update_http_err_counter;
        apply free_GetCounter_Add, Hfree. }
    exists st'. split; [done|]. intros j. rewrite Hcount.
    destruct (code =? 200); simpl; rewrite Hfor.
    + rewrite update_sent_counter, count_GetCounter_Add by done. lia.
    + rewrite update_http_err_counter, count_GetCounter_Add by done. lia.
Qed.

(** The status loop from index [i] on, when there are sizes for all the
    statuses: it succeeds, and the log grows by the error lines. *)
Lemma account_log i http_codes batch_sizes (st : Registry.t Other * list LogEntry) :
  (length http_codes + i ≤ length batch_sizes)%nat →
  ∃ r', account i http_codes batch_sizes st
        = Some (r', st.2 ++ error_lines http_codes (drop i batch_sizes)).
Proof.
  revert i st. induction http_codes as [|code codes IH]; intros i st Hlen; simpl.
  - exists st.1. rewrite app_nil_r. by destruct st.
  - simpl in Hlen.
    destruct (lookup_lt_is_Some_2 batch_sizes i) as [n Hn]; [lia|].
    rewrite Hn. simpl. rewrite (drop_S _ _ _ Hn).
    match goal with
    | |- ∃ r', account _ _ _ ?s = _ =>
        destruct (IH (S i) s) as (r' & Hrun); [lia|]
    end.
    exists r'. rewrite Hrun. f_equal. f_equal.
    destruct (code =? 200); simpl; by rewrite <- ?app_assoc.
Qed.

(** A whole send cycle: with a batch size of at least 1, a transport that
    returns one status per batch and the identities of the publisher's
    counters not taken by meters of another kind, [send_metrics] ends.  The
    snapshot of the registry is cut into batches; every counter, which the
    snapshot has left at 0, then holds the sizes of the batches accounted
    to it, and the log has grown by the error lines. *)
Lemma send_metrics_cycle PostBatches fuel r log :
  1 ≤ batch_size (Registry.GetConfig r) →
  (length (Registry.Measurements Measure_other r).2 ≤ fuel)%nat →
  (∀ client uri docs, length (PostBatches client uri docs) = length docs) →
  (∀ code, Registry.free r (counter_for code)) →
  ∃ parts r' log',
    send_metrics Measure_other PostBatches fuel (r, log) = Finished (r', log') ∧
    batch_loop fuel (Registry.GetConfig r)
      (mkBatching (Registry.Measurements Measure_other r).2 [] [])
    = Finished (mkBatching [] (Wire.document (Registry.GetConfig r) <$> parts)
                  ((λ p, Z.of_nat (length p)) <$> parts)) ∧
    concat parts = (Registry.Measurements Measure_other r).2 ∧
    (∀ j, Registry.count r' j
          = accounted (λ code, bool_decide (counter_for code = j))
              (PostBatches (make_client (Registry.GetConfig r))
                 (uri (Registry.GetConfig r))
                 (Wire.document (Registry.GetConfig r) <$> parts))
              ((λ p, Z.of_nat (length p)) <$> parts)) ∧
    log' = log ++ error_lines
                    (PostBatches (make_client (Registry.GetConfig r))
                       (uri (Registry.GetConfig r))
                       (Wire.document (Registry.GetConfig r) <$> parts))
                    ((λ p, Z.of_nat (length p)) <$> parts).
Proof.
  intros HB Hfuel Hpost Hfree. unfold send_metrics. cbn [fst snd].
  destruct (batch_loop_partition (Registry.GetConfig r) fuel
              (mkBatching (Registry.Measurements Measure_other r).2 [] []) HB Hfuel)
    as (parts & Hrun & Hcat & _).
  cbn [from batches batch_sizes app] in *. rewrite Hrun. cbn [batches batch_sizes].
  set (codes := PostBatches (make_client (Registry.GetConfig r))
                  (uri (Registry.GetConfig r))
                  (Wire.document (Registry.GetConfig r) <$> parts)).
  set (sizes := (λ p, Z.of_nat (length p)) <$> parts).
  assert (length codes = length sizes) as Hsizes
    by (subst codes sizes; by rewrite Hpost, !length_fmap).
  destruct (account_from 0 codes sizes
              ((Registry.Measurements Measure_other r).1, log))
    as ([r' log'] & Hacc & Hcount).
  { lia. }
  { subst sizes. apply Forall_fmap, Forall_forall. intros p _. simpl. lia. }
  { intros code. apply free_Measurements, Hfree. }
  destruct (account_log 0 codes sizes
              ((Registry.Measurements Measure_other r).1, log))
    as (r'' & Hlog); [lia|].
  rewrite Hacc in Hlog. injection Hlog as <- Hlog. cbn [fst snd drop] in *.
  rewrite Hacc. exists parts, r', log'. split_and!; [done..| |done].
  intros j. by rewrite Hcount, count_Measurements.
Qed.

(** C6: a send cycle takes the snapshot of the registry, which leaves
    every counter at 0; the loop of [send_metrics] cuts it into batches,
    whose documents are posted, and records the measurement count of each;
    when the transport returns one status per batch, [send_metrics] adds
    the measurement count of every batch with status 200 to the counter
    [spectator.measurementsSent], and the measurement count of every batch
    with another status to the counter [spectator.measurementsErr] tagged
    [error = httpError] and [statusCode = <that status>]; no other counter
    changes.  Each counter receives the counts of its own batches only, so
    a failed batch takes nothing from what the other batches add to the
    sent counter.  The batch size is at least 1, so that the cycle ends,
    and no meter of another kind holds the identity of one of these
    counters. *)
Theorem send_metrics_accounts_per_batch PostBatches fuel r log :
  1 ≤ batch_size (Registry.GetConfig r) →
  (length (Registry.Measurements Measure_other r).2 ≤ fuel)%nat →
  (∀ client uri docs, length (PostBatches client uri docs) = length docs) →
  (∀ code, Registry.free r (counter_for code)) →
  ∃ parts http_codes r' log',
    send_metrics Measure_other PostBatches fuel (r, log) = Finished (r', log') ∧
    batch_loop fuel (Registry.GetConfig r)
      (mkBatching (Registry.Measurements Measure_other r).2 [] [])
    = Finished (mkBatching [] (Wire.document (Registry.GetConfig r) <$> parts)
                  ((λ p, Z.of_nat (length p)) <$> parts)) ∧
    concat parts = (Registry.Measurements Measure_other r).2 ∧
    http_codes = PostBatches (make_client (Registry.GetConfig r))
                   (uri (Registry.GetConfig r))
                   (Wire.document (Registry.GetConfig r) <$> parts) ∧
    length http_codes = length parts ∧
    Registry.count r' sent
    = Registry.count (Registry.Measurements Measure_other r).1 sent
      + accounted (λ code, code =? 200) http_codes
          ((λ p, Z.of_nat (length p)) <$> parts) ∧
    (∀ status, status ≠ 200 →
       Registry.count r' (err status)
       = Registry.count (Registry.Measurements Measure_other r).1 (err status)
         + accounted (λ code, code =? status) http_codes
             ((λ p, Z.of_nat (length p)) <$> parts)) ∧
    (∀ j, j ≠ sent → (∀ status, j ≠ err status) →
          Registry.count r' j
          = Registry.count (Registry.Measurements Measure_other r).1 j) ∧
    (∀ j, Registry.count (Registry.Measurements Measure_other r).1 j = 0) ∧
    (∀ status,
       Name (err status) = "spectator.measurementsErr"%string ∧
       GetTags (err status) !! "error"%string = Some "httpError"%string ∧
       GetTags (err status) !! "statusCode"%string = Some (pretty status) ∧
       size (GetTags (err status)) = 2%nat).
Proof.
  intros HB Hfuel Hpost Hfree.
  destruct (send_metrics_cycle PostBatches fuel r log HB Hfuel Hpost Hfree)
    as (parts & r' & log' & Hrun & Hloop & Hcat & Hcount & _).
  eexists parts, _, r', log'. split_and!; [done|done|done|reflexivity|..].
  - by rewrite Hpost, length_fmap.
  - rewrite Hcount, count_Measurements. cbn. apply accounted_ext, counter_for_sent.
  - intros status Hstatus. rewrite Hcount, count_Measurements. cbn.
    apply accounted_ext. intros code. by apply counter_for_err.
  - intros j Hsent Herr. rewrite Hcount, count_Measurements, accounted_none; [done|].
    intros code. apply bool_decide_eq_false_2. unfold counter_for.
    destruct (code =? 200); [done|]. intros Heq. by apply (Herr code).
  - apply count_Measurements.
  - apply err_tags.
Qed.

End accounting.

(** The registry of the samples: no meter of another kind holds the
    identity of a counter of the publisher. *)
Lemma Sample_registry_free code :
  Registry.free Sample.registry (Counters.counter_for code).
Proof.
  intros o. unfold Sample.registry. cbn [Registry.meters_].
  destruct (decide (Counters.counter_for code = Counters.sent)) as [->|Hsent].
  { by rewrite lookup_insert_eq. }
  rewrite lookup_insert_ne by done.
  assert (Counters.counter_for code ≠ Sample.requests_id) as Hreq.
  { unfold Counters.counter_for. destruct (code =? 200); intros Heq;
      by apply (f_equal Name) in Heq. }
  rewrite lookup_insert_ne by done.
  assert (Counters.counter_for code ≠ Sample.queueSize) as Hqueue.
  { unfold Counters.counter_for. destruct (code =? 200); intros Heq;
      by apply (f_equal Name) in Heq. }
  by rewrite lookup_singleton_ne.
Qed.

Lemma Sample_answers_length client uri docs :
  length (Sample.answers client uri docs) = length docs.
Proof. apply length_imap. Qed.

Lemma send_metrics_accounts_per_batch_witness :
  1 ≤ batch_size (Registry.GetConfig Sample.registry) ∧
  (∀ code, Registry.free Sample.registry (Counters.counter_for code)) ∧
  ∃ parts http_codes r' log',
    Publisher.send_metrics MaxGauge.Measure Sample.answers
      (length (Registry.Measurements MaxGauge.Measure Sample.registry).2)
      (Sample.registry, [])
    = Finished (r', log') ∧
    concat parts = (Registry.Measurements MaxGauge.Measure Sample.registry).2 ∧
    Registry.count r' Counters.sent
    = 0 + Counters.accounted (λ code, code =? 200) http_codes
            ((λ p, Z.of_nat (length p)) <$> parts).
Proof.
  split; [by vm_compute|]. split; [apply Sample_registry_free|].
  destruct (send_metrics_accounts_per_batch MaxGauge.Measure Sample.answers
              (length (Registry.Measurements MaxGauge.Measure Sample.registry).2)
              Sample.registry [])
    as (parts & http_codes & r' & log' & Hrun & _ & Hcat & _ & _ & Hsent & _ & _
        & Hzero & _).
  - by vm_compute.
  - apply le_n.
  - apply Sample_answers_length.
  - apply Sample_registry_free.
  - exists parts, http_codes, r', log'. split; [exact Hrun|]. split; [exact Hcat|].
    rewrite Hsent, Hzero. reflexivity.
Defined.


(** The sample registry through one cycle, with the first batch answered
    200 and the second 503: the snapshot has three measurements, the 5 of
    the sent counter among them; afterwards the sent counter holds the 2 of
    the first batch, not 5 + 2, and the error counter of 503 the 1 of the
    second. *)
Example send_metrics_sample :
  Registry.count Sample.registry Counters.sent = 5 ∧
  match Publisher.send_metrics MaxGauge.Measure Sample.answers 3
          (Sample.registry, []) with
  | Finished (r', log') =>
      Some (Registry.count r' Counters.sent,
            Registry.count r' (Counters.err 503),
            Registry.count r' Sample.requests_id, log')
  | _ => None
  end
  = Some (2, 1, 0,
          [mkLog error "Unable to send batch of {} measurements to publish: {}"
                 [1; 503]]).
Proof. split; by vm_compute. Qed.

(** ** Start and Stop *)

Section lifecycle.

Import Publisher.

Lemma Start_cases cfg w p :
  Start cfg w p =
  (mkProcess true
     (events w ++ init_events w ++
      [if String.eqb (uri cfg) EmptyString
       then Warn "Registry config has no uri. Ignoring start request"
       else if started_ p
            then Warn "Registry already started. Ignoring start request"
            else ThreadStart]),
   if String.eqb (uri cfg) EmptyString then p
   else if started_ p then p
        else mk true (should_stop_ p) true).
Proof.
  unfold Start, init_events, emit. destruct w as [[] evs], p as [[] stop j];
    simpl; destruct (String.eqb (uri cfg) EmptyString); simpl;
    by rewrite <- ?app_assoc.
Qed.

Lemma Start_initialized cfg w p : http_initialized (Start cfg w p).1 = true.
Proof. by rewrite Start_cases. Qed.

Lemma Start_no_second_init cfg w p :
  http_initialized w = true →
  filter (λ e, e = GlobalInit) (events (Start cfg w p).1)
  = filter (λ e, e = GlobalInit) (events w).
Proof.
  intros Hinit. rewrite Start_cases. unfold init_events. rewrite Hinit. simpl.
  rewrite filter_app.
  destruct (String.eqb (uri cfg) EmptyString), (started_ p);
    by rewrite filter_cons_False, filter_nil, app_nil_r.
Qed.

(** [Start] of a publisher of a registry of type [R], in the whole
    process. *)
Lemma Start_of_cases R cfg pw p :
  Start_of R cfg pw p
  = (mkWorld ({[R]} ∪ initialized pw) (events (Start cfg (view R pw) p).1),
     (Start cfg (view R pw) p).2).
Proof. unfold Start_of. by rewrite Start_initialized. Qed.

Lemma init_events_view R pw :
  init_events (view R pw)
  = if bool_decide (R ∈ initialized pw) then [] else [GlobalInit].
Proof. done. Qed.

Lemma Start_of_happened R cfg pw p :
  ∃ e, e ≠ GlobalInit ∧
       happened (Start_of R cfg pw p).1
       = happened pw
         ++ (if bool_decide (R ∈ initialized pw) then [] else [GlobalInit]) ++ [e].
Proof.
  rewrite Start_of_cases, Start_cases. cbn [fst happened events view].
  rewrite init_events_view. eexists. split; [|done].
  by destruct (String.eqb (uri cfg) EmptyString), (started_ p).
Qed.

Lemma start_all_extends ps pw :
  ∃ evs, happened (start_all pw ps).1 = happened pw ++ evs.
Proof.
  revert pw. induction ps as [|[R [cfg p]] ps IH]; intros pw; cbn [start_all fst].
  - exists []. by rewrite app_nil_r.
  - destruct (IH (Start_of R cfg pw p).1) as [evs ->].
    destruct (Start_of_happened R cfg pw p) as (e & _ & ->).
    rewrite <- !app_assoc. eauto.
Qed.

(** Several calls of [Start]: the registry types initialized afterwards are
    those that were and those of the publishers, and the transport was
    initialized once for each type that is new. *)
Lemma start_all_inits ps pw :
  initialized (start_all pw ps).1 = list_to_set ps.*1 ∪ initialized pw ∧
  length (filter (λ e, e = GlobalInit) (happened (start_all pw ps).1))
  = (length (filter (λ e, e = GlobalInit) (happened pw))
     + size (list_to_set ps.*1 ∖ initialized pw : gset string))%nat.
Proof.
  revert pw. induction ps as [|[R [cfg p]] ps IH]; intros pw;
    cbn [start_all fst fmap list_fmap list_to_set].
  - split; [set_solver|].
    replace (∅ ∖ initialized pw) with (∅ : gset string) by set_solver.
    rewrite size_empty. lia.
  - destruct (IH (Start_of R cfg pw p).1) as [-> ->].
    destruct (Start_of_happened R cfg pw p) as (e & He & ->).
    rewrite Start_of_cases. cbn [fst initialized].
    split; [set_solver|].
    rewrite !filter_app, !length_app, (filter_cons_False _ e), filter_nil by done.
    cbn [length]. case_bool_decide as HR.
    + rewrite filter_nil. cbn [length].
      replace (({[R]} ∪ list_to_set ps.*1) ∖ initialized pw)
        with (list_to_set ps.*1 ∖ ({[R]} ∪ initialized pw) : gset string)
        by set_solver.
      lia.
    + rewrite filter_cons_True, filter_nil by done. cbn [length].
      replace (({[R]} ∪ list_to_set ps.*1) ∖ initialized pw)
        with ({[R]} ∪ list_to_set ps.*1 ∖ ({[R]} ∪ initialized pw) : gset string)
        by (apply set_eq; intros x; destruct (decide (x = R)); set_solver).
      pose proof (size_union (C:=gset string) {[R]}
                    (list_to_set ps.*1 ∖ ({[R]} ∪ initialized pw))) as Hsize.
      rewrite Hsize by set_solver. rewrite size_singleton. lia.
Qed.

(** C7, as the code has it.  [Start] first initializes the transport if no
    [Start] of a publisher of the same registry type has done so, whatever
    follows: the flag is a static local of [Publisher<R>::Start], so
    initialization happens once for every registry type [R] with a
    publisher in the process, at the first call of [Start] on a publisher
    of that type, also when that call then finds no endpoint.  After that: without an endpoint [Start]
    warns and leaves the publisher as it is, with no worker; on a publisher
    already started it warns and leaves it as it is; otherwise it marks the
    publisher started and runs the worker thread.  Two calls on a publisher
    with an endpoint start one worker and log one warning. *)
Theorem Start_spec cfg w p :
  http_initialized (Start cfg w p).1 = true ∧
  (uri cfg = EmptyString →
     (Start cfg w p).2 = p ∧
     events (Start cfg w p).1
     = events w ++ init_events w
       ++ [Warn "Registry config has no uri. Ignoring start request"]) ∧
  (uri cfg ≠ EmptyString → started_ p = true →
     (Start cfg w p).2 = p ∧
     events (Start cfg w p).1
     = events w ++ init_events w
       ++ [Warn "Registry already started. Ignoring start request"]) ∧
  (uri cfg ≠ EmptyString → started_ p = false →
     (Start cfg w p).2 = mk true (should_stop_ p) true ∧
     events (Start cfg w p).1 = events w ++ init_events w ++ [ThreadStart] ∧
     (Start cfg (Start cfg w p).1 (Start cfg w p).2).2 = (Start cfg w p).2 ∧
     events (Start cfg (Start cfg w p).1 (Start cfg w p).2).1
     = events w ++ init_events w
       ++ [ThreadStart; Warn "Registry already started. Ignoring start request"]) ∧
  (∀ R pw,
     Start_of R cfg pw p
     = (mkWorld ({[R]} ∪ initialized pw) (events (Start cfg (view R pw) p).1),
        (Start cfg (view R pw) p).2) ∧
     init_events (view R pw)
     = if bool_decide (R ∈ initialized pw) then [] else [GlobalInit]) ∧
  (∀ ps,
     initialized (start_all fresh_world ps).1 = list_to_set ps.*1 ∧
     length (filter (λ e, e = GlobalInit) (happened (start_all fresh_world ps).1))
     = size (list_to_set ps.*1 : gset string) ∧
     (ps ≠ [] → head (happened (start_all fresh_world ps).1) = Some GlobalInit)).
Proof.
  split_and!.
  - apply Start_initialized.
  - intros Huri. rewrite Start_cases, Huri. by simpl.
  - intros Huri%String.eqb_neq Hstarted. rewrite Start_cases, Huri, Hstarted. by simpl.
  - intros Huri%String.eqb_neq Hstarted.
    rewrite !Start_cases, Huri, Hstarted. simpl. split_and!; try done.
    unfold init_events at 2. simpl. by rewrite <- !app_assoc.
  - intros R pw. split; [apply Start_of_cases|apply init_events_view].
  - intros ps. destruct (start_all_inits ps fresh_world) as [Hinit Hcount].
    cbn [fresh_world initialized happened] in *. split_and!.
    + rewrite Hinit. set_solver.
    + rewrite Hcount. simpl. f_equal. set_solver.
    + destruct ps as [|[R [cfg0 p0]] ps]; [done|]. intros _. cbn [start_all fst].
      destruct (start_all_extends ps (Start_of R cfg0 fresh_world p0).1)
        as [evs ->].
      destruct (Start_of_happened R cfg0 fresh_world p0) as (e & _ & ->).
      by rewrite bool_decide_eq_false_2 by set_solver.
Qed.

(** C7 does not hold as stated: the first [Start] of a process initializes
    the transport although its registry has no endpoint and no publisher is
    started, and the publisher of the same registry type that is started
    afterwards does not. *)
Lemma Start_without_uri_initializes :
  uri Sample.cfg_no_uri = EmptyString ∧
  Start Sample.cfg_no_uri fresh new
  = (mkProcess true
       [GlobalInit; Warn "Registry config has no uri. Ignoring start request"],
     new) ∧
  events (Start Sample.cfg (Start Sample.cfg_no_uri fresh new).1 new).1
  = [GlobalInit; Warn "Registry config has no uri. Ignoring start request";
     ThreadStart].
Proof. repeat split; reflexivity. Qed.

(** Publishers of registries of two types, the first type twice: the
    transport is initialized at the first [Start] of either type. *)
Example Start_two_registry_types :
  happened (start_all fresh_world
              ((λ rc, (rc.1, (rc.2, new))) <$> Sample.two_types)).1
  = [GlobalInit; ThreadStart; GlobalInit; ThreadStart; ThreadStart].
Proof. by vm_compute. Qed.

(** [Stop] on a publisher that was never started returns at once and
    changes nothing. *)
Lemma Stop_never_started w p : started_ p = false → Stop w p = Returns w p.
Proof. unfold Stop. by intros ->. Qed.

(** [Stop] on a started publisher whose worker runs: it sets the stop flag,
    wakes the worker, joins it and then shuts the transport down. *)
Lemma Stop_started w p :
  started_ p = true → joinable p = true →
  Stop w p
  = Returns (mkProcess (http_initialized w)
               (events w ++ [NotifyAll; Join; GlobalShutdown]))
            (mk true true false).
Proof.
  unfold Stop, emit. intros -> ->. simpl. by rewrite <- !app_assoc.
Qed.

(** [Stop] never clears [started_], so after a [Stop] that returned, the
    next [Stop] goes on to join the worker again. *)
Lemma Stop_again w p :
  started_ p = true → joinable p = false →
  Stop w p = Throws "std::system_error" (emit w NotifyAll) (mk true true false).
Proof. unfold Stop. by intros -> ->. Qed.

(** C8 at [Start(); Stop(); Stop()] on a publisher with an endpoint that
    was not started before: [Start] runs the worker; the first [Stop] sets
    the stop flag, wakes the worker, joins it and shuts the transport down;
    the second [Stop] is no no-op: it finds [started_] still set, notifies
    again, and its [join] on the thread already joined throws
    [std::system_error]. *)
Theorem Stop_twice_throws cfg w p :
  uri cfg ≠ EmptyString →
  started_ p = false →
  ∃ w1 p1 w2 p2,
    Start cfg w p = (w1, p1) ∧
    events w1 = events w ++ init_events w ++ [ThreadStart] ∧
    Stop w1 p1 = Returns w2 p2 ∧
    events w2 = events w1 ++ [NotifyAll; Join; GlobalShutdown] ∧
    should_stop_ p2 = true ∧
    started_ p2 = true ∧
    Stop w2 p2 = Throws "std::system_error" (emit w2 NotifyAll) p2.
Proof.
  intros Huri%String.eqb_neq Hstarted.
  eexists _, _, _, _. split; [apply Start_cases|].
  rewrite Huri, Hstarted. split; [done|].
  split; [by apply Stop_started|].
  split; [done|]. split; [done|]. split; [done|].
  by apply Stop_again.
Qed.

Lemma Stop_twice_throws_witness :
  uri Sample.cfg ≠ EmptyString ∧
  started_ new = false ∧
  ∃ w2 p2,
    Stop (Start Sample.cfg fresh new).1 (Start Sample.cfg fresh new).2
    = Returns w2 p2 ∧
    Stop w2 p2 = Throws "std::system_error" (emit w2 NotifyAll) p2.
Proof.
  split; [discriminate|]. split; [reflexivity|].
  destruct (Stop_twice_throws Sample.cfg fresh new)
    as (w1 & p1 & w2 & p2 & Hstart & _ & Hstop & _ & _ & _ & Hagain).
  - discriminate.
  - reflexivity.
  - exists w2, p2. rewrite Hstart. by split.
Defined.

(** The three calls on a new publisher of a new process. *)
Example Stop_twice_sample :
  Start Sample.cfg fresh new
  = (mkProcess true [GlobalInit; ThreadStart], mk true false true) ∧
  Stop (mkProcess true [GlobalInit; ThreadStart]) (mk true false true)
  = Returns (mkProcess true [GlobalInit; ThreadStart; NotifyAll; Join; GlobalShutdown])
            (mk true true false) ∧
  Stop (mkProcess true [GlobalInit; ThreadStart; NotifyAll; Join; GlobalShutdown])
       (mk true true false)
  = Throws "std::system_error"
      (mkProcess true
         [GlobalInit; ThreadStart; NotifyAll; Join; GlobalShutdown; NotifyAll])
      (mk true true false).
Proof. repeat split; reflexivity. Qed.

(** C9 on the code: [cfg.read_timeout || 2] and [cfg.connect_timeout || 1]
    are the logical or, which is true whatever the configuration holds, and
    the client gets a timeout of 1 second for both. *)
Theorem make_client_timeouts cfg : make_client cfg = mkHttpClient 1 1.
Proof.
  unfold make_client, logical_or. simpl. by rewrite !orb_true_r.
Qed.

(** A read timeout of 5 seconds and a connect timeout of 3 seconds are
    configured; the client gets 1 second for each. *)
Example make_client_sample :
  read_timeout Sample.cfg_timeouts = 5 ∧
  connect_timeout Sample.cfg_timeouts = 3 ∧
  read_timeout_ (make_client Sample.cfg_timeouts) = 1 ∧
  connect_timeout_ (make_client Sample.cfg_timeouts) = 1 ∧
  read_timeout_ (make_client Sample.cfg) = 1.
Proof. repeat split; reflexivity. Qed.

End lifecycle.

(** * Further properties *)

(** ** MaxGauge: order of the updates and the values reported *)

Section max_gauge_more.

Import MaxGauge.

Local Ltac float_cases :=
  unfold SFeqb, SFltb, SFcompare; intros;
  repeat match goal with
         | x : spec_float |- _ => destruct x
         | s : bool |- _ => destruct s
         end;
  simpl in *; try congruence;
  repeat match goal with
         | H : context [Z.compare ?x ?y] |- _ => destruct (Z.compare_spec x y)
         | |- context [Z.compare ?x ?y] => destruct (Z.compare_spec x y)
         | H : context [Pos.compare_cont Eq ?x ?y] |- _ =>
             change (Pos.compare_cont Eq x y) with (Pos.compare x y) in *;
             destruct (Pos.compare_spec x y)
         | |- context [Pos.compare_cont Eq ?x ?y] =>
             change (Pos.compare_cont Eq x y) with (Pos.compare x y) in *;
             destruct (Pos.compare_spec x y)
         end;
  simpl in *; try congruence; try lia.

Lemma SFltb_right_not_nan a b : SFltb a b = true → b ≠ S754_nan.
Proof. revert a b. float_cases. Qed.

Lemma SFltb_right_not_neg_infinity a b :
  SFltb a b = true → b ≠ S754_infinity true.
Proof. revert a b. float_cases. Qed.

(** Two numbers neither of which is below the other are equal. *)
Lemma SFeqb_not_ltb a b :
  a ≠ S754_nan → b ≠ S754_nan →
  SFltb a b = false → SFltb b a = false → SFeqb a b = true.
Proof. revert a b. float_cases. Qed.

Lemma SFeqb_compat a b c : SFeqb a b = true → SFeqb a c = SFeqb b c.
Proof. revert a b c. float_cases. Qed.

(** The value of a gauge that started a window at the sentinel is a
    number. *)
Lemma window_value_not_nan g vs :
  value_ g = kMinValue → value_ (Updates g vs) ≠ S754_nan.
Proof.
  intros Hg. rewrite Updates_value, Hg.
  destruct (running_max kMinValue vs) as (_ & _ & [-> | Habove]); [done|].
  by eapply SFltb_right_not_nan.
Qed.

(** The updates of a window may arrive in any order: the gauge ends with
    the same number (as [==] has it; of two zeros of different sign either
    may remain), and the [Measure] that follows reports in the one order
    exactly when it does in the other. *)
Theorem MaxGauge_update_order g vs vs' :
  value_ g = kMinValue →
  vs ≡ₚ vs' →
  Double.eqb (Get (Updates g vs)) (Get (Updates g vs')) = true ∧
  ((Measure (Updates g vs)).2 = [] ↔ (Measure (Updates g vs')).2 = []).
Proof.
  intros Hg Hperm.
  assert (∀ l l', l ≡ₚ l' →
                  SFltb (value_ (Updates g l)) (value_ (Updates g l')) = false)
    as Hnot_below.
  { intros l l' Hll'. rewrite !Updates_value, Hg.
    destruct (running_max kMinValue l) as (_ & Hmax & _).
    destruct (running_max kMinValue l') as ([Heq | Hin] & _ & Hmono').
    - rewrite Heq.
      destruct (running_max kMinValue l) as (_ & _ & [-> | Habove]).
      + apply SFltb_irrefl.
      + apply (SFltb_above kMinValue); [done|apply SFltb_irrefl].
    - apply Hmax. by rewrite Hll'. }
  assert (Double.eqb (Get (Updates g vs)) (Get (Updates g vs')) = true) as Heq.
  { apply SFeqb_not_ltb; auto using window_value_not_nan.
    by apply Hnot_below. }
  split; [done|].
  unfold Measure. unfold Double.eqb, Get in *.
  rewrite (SFeqb_compat _ _ kMinValue Heq).
  destruct (SFeqb (value_ (Updates g vs')) kMinValue); simpl; split; done.
Qed.

(** Whatever [Measure] reports after a window is above the sentinel: it is
    never NaN, never minus infinity and never the sentinel itself. *)
Theorem MaxGauge_reported_value g vs m :
  value_ g = kMinValue →
  m ∈ (Measure (Updates g vs)).2 →
  Double.gt (value m) kMinValue = true ∧
  value m ≠ Double.nan ∧
  value m ≠ Double.neg_infinity ∧
  value m = Get (Updates g vs).
Proof.
  intros Hg. unfold Measure, Double.eqb, Get.
  pose proof (running_max (value_ g) vs) as (_ & _ & Hmono).
  rewrite <- Updates_value, Hg in Hmono.
  destruct (SFeqb (value_ (Updates g vs)) kMinValue) eqn:Heq; simpl.
  { by intros ?%elem_of_nil. }
  intros ->%list_elem_of_singleton. simpl.
  assert (SFltb kMinValue (value_ (Updates g vs)) = true) as Habove.
  { destruct Hmono as [Hk | ?]; [|done]. by rewrite Hk in Heq. }
  split_and!; [done| | |done].
  - by eapply SFltb_right_not_nan.
  - by eapply SFltb_right_not_neg_infinity.
Qed.

(** A measurement of a MaxGauge is never filtered by the encoder: its
    statistic is recognized as Max, so it is encoded with op code 10, and
    it carries the name of the gauge. *)
Theorem MaxGauge_measurement_is_max g m :
  m ∈ (Measure g).2 →
  Publisher.op_from_tags (GetTags (id m)) = Publisher.Max ∧
  Wire.op_code (GetTags (id m)) = Some 10 ∧
  Name (id m) = Name (id_ g) ∧
  ∀ k, k ≠ "statistic"%string → GetTags (id m) !! k = GetTags (id_ g) !! k.
Proof.
  unfold Measure. destruct (Double.eqb (value_ g) kMinValue); simpl.
  { by intros ?%elem_of_nil. }
  intros ->%list_elem_of_singleton. simpl.
  assert (Wire.op_code (<["statistic"%string := "max"%string]> (GetTags (id_ g)))
          = Some 10) as Hcode.
  { unfold Wire.op_code. by rewrite lookup_insert_eq. }
  split_and!; [|done|done|].
  - rewrite op_from_tags_op_code in Hcode.
    by destruct (Publisher.op_from_tags _).
  - intros k Hk. by rewrite lookup_insert_ne.
Qed.

End max_gauge_more.

(** ** Reading a document back *)

Section decode.

Import Publisher Wire Decode.

Lemma strings_of_app l rest :
  strings_of (length l) ((JString <$> l) ++ rest) = Some (l, rest).
Proof.
  induction l as [|s l IH]; [done|].
  rewrite fmap_cons. cbn [length app strings_of]. by rewrite IH.
Qed.

Lemma pairs_of_app strs idx (tags : list (string * string)) rest :
  (∀ tag, tag ∈ tags →
          string_at strs (idx tag.1) = Some tag.1 ∧
          string_at strs (idx tag.2) = Some tag.2) →
  pairs_of strs (length tags)
    (flat_map (λ tag : string * string, [JInt (idx tag.1); JInt (idx tag.2)]) tags
     ++ rest)
  = Some (tags, rest).
Proof.
  induction tags as [|[k v] tags IH]; intros Hall; simpl; [done|].
  destruct (Hall (k, v)) as [Hk Hv]; [by left|]. simpl in Hk, Hv.
  rewrite Hk, Hv. simpl. rewrite IH; [done|].
  intros tag Htag. apply Hall. by right.
Qed.

(** A record is its tag count, the index pairs of the common tags, of the
    identity tags and of the name, the op code and the value. *)
Lemma record_pairs idx cfg code m :
  record idx cfg code m
  = JInt (Z.of_nat (length (tags (entry cfg code m))))
    :: flat_map (λ tag : string * string, [JInt (idx tag.1); JInt (idx tag.2)])
         (tags (entry cfg code m))
    ++ [JInt code; JDouble (value m)].
Proof.
  unfold record, entry, tag_indices. simpl.
  rewrite !flat_map_app, !length_app, !length_map_to_list. simpl.
  rewrite <- !app_assoc. simpl. do 2 f_equal. lia.
Qed.

Lemma records_cons idx cfg m ms :
  records idx cfg (m :: ms)
  = match op_code (GetTags (id m)) with
    | Some code => record idx cfg code m
    | None => []
    end ++ records idx cfg ms.
Proof. done. Qed.

Lemma entries_cons cfg m ms :
  entries cfg (m :: ms)
  = match op_code (GetTags (id m)) with
    | Some code => entry cfg code m :: entries cfg ms
    | None => entries cfg ms
    end.
Proof. unfold entries. simpl. by destruct (op_code (GetTags (id m))). Qed.

Lemma entries_of_records strs idx cfg batch ms fuel :
  (∀ s, referenced cfg batch s → string_at strs (idx s) = Some s) →
  (∀ m, m ∈ ms → m ∈ batch) →
  (length (records idx cfg ms) ≤ fuel)%nat →
  entries_of strs fuel (records idx cfg ms) = Some (entries cfg ms).
Proof.
  intros Hidx. revert fuel.
  induction ms as [|m ms IH]; intros fuel Hms Hfuel; [by destruct fuel|].
  assert (m ∈ batch) as Hm by (apply Hms; by left).
  assert (∀ m', m' ∈ ms → m' ∈ batch) as Hms' by (intros m' ?; apply Hms; by right).
  rewrite records_cons, entries_cons in *.
  destruct (op_code (GetTags (id m))) as [code|]; [|by apply IH].
  rewrite record_pairs, length_app in *.
  destruct fuel as [|fuel]; [simpl in Hfuel; lia|].
  cbn [app entries_of]. rewrite Nat2Z.id, <- !app_assoc, pairs_of_app.
  - cbn [app mbind option_bind]. rewrite IH by (done || simpl in Hfuel; lia). done.
  - intros [k v]. unfold entry. cbn [tags].
    rewrite !elem_of_app, list_elem_of_singleton.
    intros [Hc%elem_of_map_to_list | [Ht%elem_of_map_to_list | [= -> ->]]];
      simpl; split; apply Hidx.
    + left. exists k, v. auto.
    + left. exists k, v. auto.
    + right; right. exists m. split; [done|]. right. exists k, v. auto.
    + right; right. exists m. split; [done|]. right. exists k, v. auto.
    + right; by left.
    + right; right. exists m. auto.
Qed.

(** The document of a batch can be read back: from the document alone one
    recovers, for every measurement of the batch with a recognized
    statistic and in the order of the batch, all its tags (the common ones,
    its own and its name), its op code and its value. *)
Theorem measurements_to_json_decode cfg batch :
  ∃ doc,
    measurements_to_json cfg batch = Some (doc, Z.of_nat (length batch)) ∧
    decode doc = Some (entries cfg batch).
Proof.
  exists (document cfg batch). split; [apply measurements_to_json_document|].
  unfold decode, document. rewrite Nat2Z.id, strings_of_app. simpl.
  apply (entries_of_records _ _ cfg batch); [|done|done].
  intros s Hs. unfold string_at, rank at 1.
  rewrite (proj2 (Z.ltb_ge _ _)) by lia. by apply rank_is_index.
Qed.

End decode.

(** ** The string table: bounds of the indices, order of the batch *)

Section str_table_more.

Import Publisher Wire.

(** The document of the sample batch read back: the count and the max, each
    with the common tag, its own tag and its name. *)
Example decode_sample :
  (Publisher.measurements_to_json Sample.cfg
     [Sample.requests; Sample.untagged; Sample.queue]
   ≫= λ doc, Decode.decode doc.1)
  = Some [Decode.mkEntry [("nf.app", "www"); ("statistic", "count");
                          ("name", "requests")]%string 0 (Double.of_Z 3);
          Decode.mkEntry [("nf.app", "www"); ("statistic", "max");
                          ("name", "queueSize")]%string 10 (Double.of_Z 9)].
Proof. vm_compute. reflexivity. Qed.

(** Every index of the table is a position of the string list pushed to the
    payload, no two strings share an index, and the table is never empty:
    it always holds [name]. *)
Theorem build_str_table_indices cfg payload batch :
  is_Some ((build_str_table cfg payload batch).2 !! "name"%string) ∧
  (1 ≤ length (sorted_strings cfg batch))%nat ∧
  (∀ s i, (build_str_table cfg payload batch).2 !! s = Some i →
          0 ≤ i < Z.of_nat (length (sorted_strings cfg batch))) ∧
  (∀ s s' i, (build_str_table cfg payload batch).2 !! s = Some i →
             (build_str_table cfg payload batch).2 !! s' = Some i →
             s = s').
Proof.
  assert (∀ s i, (build_str_table cfg payload batch).2 !! s = Some i →
                 ∃ j, i = Z.of_nat j ∧ sorted_strings cfg batch !! j = Some s)
    as Hpos.
  { intros s i Hi.
    assert (s ∈ sorted_strings cfg batch) as [j Hj]%list_elem_of_lookup_1.
    { rewrite elem_of_sorted_strings, <- (build_str_table_dom cfg payload batch).
      apply elem_of_dom. eauto. }
    exists j. split; [|done].
    rewrite (build_str_table_position _ _ _ j) in Hi by done. congruence. }
  assert ("name"%string ∈ sorted_strings cfg batch) as Hname.
  { rewrite elem_of_sorted_strings, dom_collect_strings. right; by left. }
  split_and!.
  - apply elem_of_dom. by rewrite build_str_table_dom, <- elem_of_sorted_strings.
  - destruct (sorted_strings cfg batch); [by apply elem_of_nil in Hname|simpl; lia].
  - intros s i (j & -> & Hj%lookup_lt_Some)%Hpos. lia.
  - intros s s' i (j & -> & Hj)%Hpos (j' & Hjj' & Hj')%Hpos.
    apply Nat2Z.inj in Hjj' as <-. congruence.
Qed.

(** Every string is collected with the value 0. *)
Lemma note_tags_zero (strings : gmap string Z) tags :
  (∀ s v, strings !! s = Some v → v = 0) →
  ∀ s v, foldl note_tag strings tags !! s = Some v → v = 0.
Proof.
  revert strings. induction tags as [|tag tags IH]; intros strings Hzero; [done|].
  simpl. apply IH. unfold note_tag. intros s v.
  rewrite !lookup_insert. repeat case_decide; [congruence..|apply Hzero].
Qed.

Lemma collect_strings_zero cfg batch s v :
  collect_strings cfg batch !! s = Some v → v = 0.
Proof.
  unfold collect_strings. revert s v.
  assert (∀ strings : gmap string Z,
            (∀ s v, strings !! s = Some v → v = 0) →
            ∀ s v, foldl note_measurement strings batch !! s = Some v → v = 0)
    as Hbatch.
  { induction batch as [|m batch IH]; intros strings Hzero; [done|].
    simpl. apply IH. unfold note_measurement. apply note_tags_zero.
    intros s v. rewrite lookup_insert. case_decide; [congruence|apply Hzero]. }
  apply Hbatch. intros s v. rewrite lookup_insert. case_decide; [congruence|].
  apply note_tags_zero. intros s' v'. by rewrite lookup_empty.
Qed.

(** The table and the strings pushed depend on which measurements the batch
    holds, not on their order nor on how often one occurs. *)
Theorem build_str_table_same_measurements cfg payload batch batch' :
  (∀ m, m ∈ batch ↔ m ∈ batch') →
  build_str_table cfg payload batch = build_str_table cfg payload batch'.
Proof.
  intros Hsame.
  assert (collect_strings cfg batch = collect_strings cfg batch') as Hcollect.
  { apply map_eq. intros s.
    assert (s ∈ dom (collect_strings cfg batch)
            ↔ s ∈ dom (collect_strings cfg batch')) as Hdom.
    { rewrite !dom_collect_strings. unfold referenced.
      split; intros [?|[?|(m & Hm & ?)]]; auto; right; right; exists m;
        (split; [by apply Hsame|done]). }
    rewrite !elem_of_dom in Hdom.
    destruct (collect_strings cfg batch !! s) as [v|] eqn:Hv,
             (collect_strings cfg batch' !! s) as [v'|] eqn:Hv'.
    - apply collect_strings_zero in Hv, Hv'. congruence.
    - destruct Hdom as [Hdom _]. by destruct Hdom.
    - destruct Hdom as [_ Hdom]. by destruct Hdom.
    - done. }
  unfold build_str_table. by rewrite Hcollect.
Qed.

End str_table_more.

(** ** The send cycle: empty snapshots, missing statuses, conservation *)

Section accounting_more.

Import Publisher Counters Accounting.

Context {Other : Type}.
Variable Measure_other : Other → Other * list Measurement.
Implicit Types r : Registry.t Other.

(** With nothing to send there is no batch, whatever the batch size; the
    transport is called with no documents, and any status it returns then
    refers to a batch that does not exist.  The snapshot was empty, so
    every counter was at 0 and is as it was; the meters of the other kinds
    are as their [Measure] left them; the log is as it was. *)
Theorem send_metrics_empty PostBatches fuel r log :
  (Registry.Measurements Measure_other r).2 = [] →
  send_metrics Measure_other PostBatches fuel (r, log)
  = match PostBatches (make_client (Registry.GetConfig r))
            (uri (Registry.GetConfig r)) [] with
    | [] => Finished ((Registry.Measurements Measure_other r).1, log)
    | _ :: _ => Undefined
    end ∧
  Registry.GetConfig (Registry.Measurements Measure_other r).1
  = Registry.GetConfig r ∧
  (∀ j, Registry.meters_ (Registry.Measurements Measure_other r).1 !! j
        = match Registry.meters_ r !! j with
          | Some (Registry.IsOther o) =>
              Some (Registry.IsOther (Measure_other o).1)
          | m => m
          end) ∧
  (∀ j, Registry.count (Registry.Measurements Measure_other r).1 j
        = Registry.count r j).
Proof.
  intros Hnil.
  assert (∀ j, Registry.meters_ (Registry.Measurements Measure_other r).1 !! j
               = match Registry.meters_ r !! j with
                 | Some (Registry.IsOther o) =>
                     Some (Registry.IsOther (Measure_other o).1)
                 | m => m
                 end) as Hmeters.
  { intros j. rewrite Measurements_meters.
    destruct (Registry.meters_ r !! j) as [[c|o]|] eqn:Hj; simpl; try done.
    pose proof (snapshot_empty_idle Measure_other r j c Hnil Hj) as Hc.
    destruct c as [i n]. simpl in *. by subst n. }
  split_and!; [|done|done|].
  - unfold send_metrics. cbn [fst snd]. rewrite Hnil.
    assert (batch_loop fuel (Registry.GetConfig r) (mkBatching [] [] [])
            = Finished (mkBatching [] [] [])) as -> by (by destruct fuel).
    simpl. by destruct (PostBatches _ _ _).
  - intros j. unfold Registry.count. rewrite Hmeters.
    by destruct (Registry.meters_ r !! j) as [[c|o]|].
Qed.

(** The sizes beyond the last status are not looked at. *)
Lemma account_more_sizes i http_codes batch_sizes extra
    (st : Registry.t Other * list LogEntry) :
  (length http_codes + i ≤ length batch_sizes)%nat →
  account i http_codes (batch_sizes ++ extra) st
  = account i http_codes batch_sizes st.
Proof.
  revert i st. induction http_codes as [|code codes IH]; intros i st Hlen;
    simpl; [done|].
  simpl in Hlen. rewrite lookup_app_l by lia.
  destruct (batch_sizes !! i); simpl; [|done]. apply IH. lia.
Qed.

(** A status beyond the last size is an access out of bounds. *)
Lemma account_more_codes i http_codes batch_sizes
    (st : Registry.t Other * list LogEntry) :
  (i ≤ length batch_sizes < length http_codes + i)%nat →
  account i http_codes batch_sizes st = None.
Proof.
  revert i st. induction http_codes as [|code codes IH]; intros i st Hlen;
    simpl in *; [lia|].
  destruct (batch_sizes !! i) as [n|] eqn:Hn; simpl; [|done].
  apply lookup_lt_Some in Hn. apply IH. lia.
Qed.

(** The transport is trusted to return one status per batch.  When it
    returns fewer, the batches left over are accounted nowhere, neither as
    sent nor as failed; when it returns more, the loop reads
    [batch_sizes] out of bounds. *)
Theorem account_status_count http_codes batch_sizes
    (st : Registry.t Other * list LogEntry) :
  length http_codes = length batch_sizes →
  is_Some (account 0 http_codes batch_sizes st) ∧
  (∀ unanswered,
     account 0 http_codes (batch_sizes ++ unanswered) st
     = account 0 http_codes batch_sizes st) ∧
  (∀ code more,
     account 0 (http_codes ++ code :: more) batch_sizes st = None).
Proof.
  intros Hlen. split_and!.
  - destruct (account_log 0 http_codes batch_sizes st) as [r' ->]; [lia|]. eauto.
  - intros unanswered. apply account_more_sizes. lia.
  - intros code more. apply account_more_codes.
    rewrite length_app. simpl. lia.
Qed.

Lemma accounted_split P http_codes batch_sizes :
  accounted P http_codes batch_sizes
  + accounted (λ code, negb (P code)) http_codes batch_sizes
  = accounted (λ _, true) http_codes batch_sizes.
Proof.
  revert batch_sizes.
  induction http_codes as [|code codes IH]; intros [|n sizes]; simpl; try done.
  specialize (IH sizes). destruct (P code); simpl; lia.
Qed.

Lemma accounted_all http_codes (parts : list (list Measurement)) :
  length http_codes = length parts →
  accounted (λ _, true) http_codes ((λ p, Z.of_nat (length p)) <$> parts)
  = Z.of_nat (length (concat parts)).
Proof.
  revert parts.
  induction http_codes as [|code codes IH]; intros [|p parts] Hlen;
    simpl in *; try done.
  rewrite IH, length_app by lia. lia.
Qed.

Lemma accounted_where_none P http_codes batch_sizes :
  Forall (λ code, P code = false) http_codes →
  accounted P http_codes batch_sizes = 0.
Proof.
  intros Hnone. revert batch_sizes.
  induction Hnone as [|code codes Hcode _ IH]; intros [|n sizes]; simpl; try done.
  by rewrite Hcode, IH.
Qed.

Lemma error_lines_all_ok http_codes batch_sizes :
  Forall (λ code, code = 200) http_codes → error_lines http_codes batch_sizes = [].
Proof.
  intros Hok. revert batch_sizes.
  induction Hok as [|code codes -> _ IH]; intros [|n sizes]; simpl; auto.
Qed.

(** No measurement of a snapshot is lost to the accounting or counted
    twice.  A send cycle takes the snapshot of the registry, which resets
    the sent counter to 0 (what it held from the cycle before is a
    measurement of this snapshot).  With a batch size of at least 1, a
    transport that returns one status per batch and no meter of another
    kind under the identity of one of the publisher's counters, the cycle
    ends, and what the sent counter holds afterwards plus the sizes of the
    batches that failed is the size of the snapshot.  The log gains one
    error line per failed batch.  If every status is 200, the sent counter
    holds the size of the snapshot and nothing is logged. *)
Theorem send_metrics_conservation PostBatches fuel r log :
  1 ≤ batch_size (Registry.GetConfig r) →
  (length (Registry.Measurements Measure_other r).2 ≤ fuel)%nat →
  (∀ client uri docs, length (PostBatches client uri docs) = length docs) →
  (∀ code, Registry.free r (counter_for code)) →
  ∃ parts r' log',
    send_metrics Measure_other PostBatches fuel (r, log) = Finished (r', log') ∧
    concat parts = (Registry.Measurements Measure_other r).2 ∧
    Registry.count r' sent
    + accounted (λ code, negb (code =? 200))
        (PostBatches (make_client (Registry.GetConfig r))
           (uri (Registry.GetConfig r))
           (Wire.document (Registry.GetConfig r) <$> parts))
        ((λ p, Z.of_nat (length p)) <$> parts)
    = Z.of_nat (length (Registry.Measurements Measure_other r).2) ∧
    log' = log ++ error_lines
                    (PostBatches (make_client (Registry.GetConfig r))
                       (uri (Registry.GetConfig r))
                       (Wire.document (Registry.GetConfig r) <$> parts))
                    ((λ p, Z.of_nat (length p)) <$> parts) ∧
    (Forall (λ code, code = 200)
       (PostBatches (make_client (Registry.GetConfig r))
          (uri (Registry.GetConfig r))
          (Wire.document (Registry.GetConfig r) <$> parts)) →
     Registry.count r' sent
     = Z.of_nat (length (Registry.Measurements Measure_other r).2) ∧
     log' = log).
Proof.
  intros HB Hfuel Hpost Hfree.
  destruct (send_metrics_cycle Measure_other PostBatches fuel r log
              HB Hfuel Hpost Hfree)
    as (parts & r' & log' & Hrun & _ & Hcat & Hcount & Hlog).
  set (codes := PostBatches (make_client (Registry.GetConfig r))
                  (uri (Registry.GetConfig r))
                  (Wire.document (Registry.GetConfig r) <$> parts)) in *.
  set (sizes := (λ p, Z.of_nat (length p)) <$> parts) in *.
  assert (length codes = length parts) as Hcodes
    by (subst codes; by rewrite Hpost, length_fmap).
  exists parts, r', log'.
  assert (Registry.count r' sent + accounted (λ code, negb (code =? 200)) codes sizes
          = Z.of_nat (length (Registry.Measurements Measure_other r).2)) as Htotal.
  { rewrite Hcount, (accounted_ext _ (λ code, code =? 200)) by apply counter_for_sent.
    rewrite accounted_split. subst sizes.
    by rewrite accounted_all, Hcat. }
  split_and!; [done..|].
  intros Hok. rewrite Hlog, error_lines_all_ok, app_nil_r by done.
  split; [|done]. rewrite <- Htotal, accounted_where_none; [lia|].
  eapply Forall_impl; [exact Hok|]. by intros code ->.
Qed.

End accounting_more.

(** ** Start and Stop: restarting, several publishers *)

Section lifecycle_more.

Import Publisher Lifecycle.

(** A publisher that was stopped cannot be started again: [Stop] leaves
    [started_] set, so the next [Start] takes the publisher for running,
    warns and starts no worker, although none is running any more. *)
Theorem Start_after_Stop cfg w p :
  uri cfg ≠ EmptyString →
  started_ p = false →
  ∃ w2 p2,
    Stop (Start cfg w p).1 (Start cfg w p).2 = Returns w2 p2 ∧
    joinable p2 = false ∧
    should_stop_ p2 = true ∧
    Start cfg w2 p2
    = (emit w2 (Warn "Registry already started. Ignoring start request"), p2).
Proof.
  intros Huri%String.eqb_neq Hstarted.
  rewrite Start_cases, Huri, Hstarted. cbn [fst snd].
  rewrite Stop_started by done.
  eexists _, _. split; [done|]. split; [done|]. split; [done|].
  rewrite Start_cases, Huri. unfold init_events, emit. simpl.
  by rewrite <- !app_assoc.
Qed.

(** A publisher without an endpoint: [Start] initializes the transport (if
    it is the first of its registry type in the process), and the [Stop]
    that follows returns at once, so nothing shuts the transport down. *)
Theorem Stop_after_Start_without_uri cfg w p :
  uri cfg = EmptyString →
  started_ p = false →
  Stop (Start cfg w p).1 (Start cfg w p).2
  = Returns (mkProcess true
               (events w ++ init_events w
                ++ [Warn "Registry config has no uri. Ignoring start request"]))
            p ∧
  GlobalShutdown ∉ init_events w
                   ++ [Warn "Registry config has no uri. Ignoring start request"].
Proof.
  intros Huri Hstarted. rewrite Start_cases, Huri. cbn [fst snd String.eqb].
  split; [by apply Stop_never_started|].
  unfold init_events. destruct (http_initialized w); simpl; intros Hin;
    repeat (apply elem_of_cons in Hin as [Hin|Hin]; [discriminate|]);
    by apply elem_of_nil in Hin.
Qed.

(** New publishers with endpoints, each of a registry of its type: every
    [Start] runs a worker. *)
Lemma start_all_new (rcs : list (string * Config)) pw :
  Forall (λ rc, uri rc.2 ≠ EmptyString) rcs →
  ∃ evs,
    start_all pw ((λ rc, (rc.1, (rc.2, new))) <$> rcs)
    = (mkWorld (list_to_set rcs.*1 ∪ initialized pw) (happened pw ++ evs),
       replicate (length rcs) (mk true false true)) ∧
    length (filter (λ e, e = ThreadStart) evs) = length rcs ∧
    Forall (λ e, e = ThreadStart ∨ e = GlobalInit) evs.
Proof.
  intros Huris. revert pw.
  induction Huris as [|[R cfg] rcs Huri%String.eqb_neq _ IH]; intros pw.
  - exists []. simpl. rewrite app_nil_r. split_and!; [|done|done].
    destruct pw as [I evs]. simpl. f_equal. f_equal. set_solver.
  - rewrite fmap_cons. cbn [start_all fst snd].
    destruct (IH (Start_of R cfg pw new).1) as (evs & -> & Hstarts & Hevs).
    rewrite Start_of_cases, Start_cases. cbn [fst snd] in *. rewrite Huri.
    cbn [started_ new should_stop_ view events happened initialized].
    rewrite init_events_view.
    exists ((if bool_decide (R ∈ initialized pw) then [] else [GlobalInit])
            ++ [ThreadStart] ++ evs).
    split_and!.
    + rewrite <- !app_assoc. simpl. f_equal. f_equal. set_solver.
    + rewrite !filter_app, !length_app, Hstarts.
      rewrite (filter_cons_True _ ThreadStart), filter_nil by done.
      destruct (bool_decide (R ∈ initialized pw)); [done|].
      by rewrite filter_cons_False, filter_nil.
    + apply Forall_app. split; [|apply Forall_cons; auto].
      destruct (bool_decide (R ∈ initialized pw)); auto.
Qed.

(** Publishers with a running worker: every [Stop] that returns has
    notified, joined and shut the transport down. *)
Lemma stop_all_started (Rs : list string) pw :
  stop_all pw ((λ R, (R, mk true false true)) <$> Rs)
  = Some (mkWorld (initialized pw)
            (happened pw
             ++ concat (replicate (length Rs) [NotifyAll; Join; GlobalShutdown])),
          replicate (length Rs) (mk true true false)).
Proof.
  revert pw. induction Rs as [|R Rs IH]; intros pw.
  - simpl. rewrite app_nil_r. by destruct pw.
  - rewrite fmap_cons. cbn [length replicate stop_all concat].
    rewrite Stop_started by done. cbn [view events emit].
    rewrite IH. cbn [initialized happened option_bind mbind fst snd].
    simpl. by rewrite <- !app_assoc.
Qed.

Lemma zip_replicate {A B} (l : list A) (x : B) :
  zip l (replicate (length l) x) = (λ a, (a, x)) <$> l.
Proof. induction l as [|a l IH]; simpl; [done|]. by rewrite IH. Qed.

Lemma filter_none_of (P Q : Event → Prop) `{∀ e, Decision (P e)} evs :
  Forall Q evs → (∀ e, Q e → ¬ P e) → filter P evs = [].
Proof.
  intros Hevs HPQ. induction Hevs as [|e evs He _ IH]; [done|].
  rewrite filter_cons_False by (by apply HPQ). apply IH.
Qed.

Lemma length_filter_stops (e : Event) n :
  length (filter (λ x, x = e)
            (concat (replicate n [NotifyAll; Join; GlobalShutdown])))
  = (n * length (filter (λ x, x = e) [NotifyAll; Join; GlobalShutdown]))%nat.
Proof.
  induction n as [|n IH]; [done|].
  cbn [replicate concat]. rewrite filter_app, length_app, IH. lia.
Qed.

(** Several new publishers in one fresh process, each with an endpoint and
    each of a registry of its type, all started and then all stopped: if
    every [Stop] has returned, every publisher has run and joined one
    worker, the transport was initialized once for every registry type
    among the publishers, by the first [Start] of that type, and shut down
    once per publisher, by every [Stop]. *)
Theorem start_all_stop_all (rcs : list (string * Config)) pw' ps' :
  Forall (λ rc, uri rc.2 ≠ EmptyString) rcs →
  stop_all (start_all fresh_world ((λ rc, (rc.1, (rc.2, new))) <$> rcs)).1
           (zip rcs.*1
                (start_all fresh_world ((λ rc, (rc.1, (rc.2, new))) <$> rcs)).2)
  = Some (pw', ps') →
  initialized pw' = list_to_set rcs.*1 ∧
  length (filter (λ e, e = GlobalInit) (happened pw'))
  = size (list_to_set rcs.*1 : gset string) ∧
  length (filter (λ e, e = ThreadStart) (happened pw')) = length rcs ∧
  length (filter (λ e, e = Join) (happened pw')) = length rcs ∧
  length (filter (λ e, e = GlobalShutdown) (happened pw')) = length rcs ∧
  ps' = replicate (length rcs) (mk true true false).
Proof.
  intros Huris.
  destruct (start_all_inits ((λ rc, (rc.1, (rc.2, new))) <$> rcs) fresh_world)
    as [_ Hinits].
  destruct (start_all_new rcs fresh_world Huris) as (evs & Hstart & Hthreads & Hevs).
  rewrite Hstart in *. cbn [fst snd fresh_world initialized happened app] in *.
  assert (((λ rc : string * Config, (rc.1, (rc.2, new))) <$> rcs).*1 = rcs.*1)
    as Htypes.
  { rewrite <- list_fmap_compose. by apply list_fmap_ext. }
  rewrite Htypes in Hinits.
  replace (length rcs) with (length rcs.*1) at 1 by apply length_fmap.
  rewrite zip_replicate, stop_all_started. intros [= <- <-].
  cbn [initialized happened]. rewrite length_fmap.
  split_and!; [set_solver| | | | |done];
    rewrite filter_app, length_app, length_filter_stops.
  - rewrite Hinits. simpl.
    rewrite Nat.mul_0_r, Nat.add_0_r. f_equal. set_solver.
  - rewrite Hthreads. simpl. lia.
  - rewrite (filter_none_of _ _ evs Hevs) by (intros e [-> | ->]; done).
    simpl. lia.
  - rewrite (filter_none_of _ _ evs Hevs) by (intros e [-> | ->]; done).
    simpl. lia.
Qed.

End lifecycle_more.

(** ** The meters of the registry *)

Section meter_store.

Import MeterStore.

Context {Meter : Type}.
Variable MeterId : Meter → Id.
Variable Measure : Meter → Meter * list Measurement.

(** [insert_if_needed] is get-or-create, and the first insert wins: the
    meter returned is the one the map holds under the identity afterwards;
    if the identity was taken, the map is unchanged and the meter that was
    there is returned, whatever meter was passed; other identities are not
    touched; a second insert under the same identity changes nothing and
    returns the same meter; and if every meter was stored under its own
    identity, that is still so. *)
Theorem insert_if_needed_first_wins (meters : gmap Id Meter) (meter : Meter) :
  (insert_if_needed MeterId meters meter).1 !! MeterId meter
  = Some (insert_if_needed MeterId meters meter).2 ∧
  (∀ existing, meters !! MeterId meter = Some existing →
               insert_if_needed MeterId meters meter = (meters, existing)) ∧
  (meters !! MeterId meter = None →
     (insert_if_needed MeterId meters meter).2 = meter ∧
     size (insert_if_needed MeterId meters meter).1 = S (size meters)) ∧
  (∀ k, k ≠ MeterId meter →
        (insert_if_needed MeterId meters meter).1 !! k = meters !! k) ∧
  (∀ other, MeterId other = MeterId meter →
     insert_if_needed MeterId (insert_if_needed MeterId meters meter).1 other
     = insert_if_needed MeterId meters meter) ∧
  ((∀ k m, meters !! k = Some m → MeterId m = k) →
   ∀ k m, (insert_if_needed MeterId meters meter).1 !! k = Some m → MeterId m = k).
Proof.
  unfold insert_if_needed.
  destruct (meters !! MeterId meter) as [existing|] eqn:Hid; simpl.
  - split_and!; try done.
    + by intros existing' [= ->].
    + intros other ->. by rewrite Hid.
  - split_and!; try done.
    + by rewrite lookup_insert_eq.
    + intros _. split; [done|]. by apply map_size_insert_None.
    + intros k Hk. by rewrite lookup_insert_ne.
    + intros other ->. by rewrite lookup_insert_eq.
    + intros Hkeyed k m. rewrite lookup_insert. case_decide; [congruence|].
      apply Hkeyed.
Qed.

(** [Measurements] measures every meter once: the meters are those that
    were there, each as its [Measure] left it, and the result is what the
    meters returned, one after the other in the order of the map.  No
    identity is added or removed. *)
Theorem Measurements_measures_each (meters : gmap Id Meter) :
  Measurements Measure meters
  = ((λ m, (Measure m).1) <$> meters,
     concat ((λ p, (Measure p.2).2) <$> map_to_list meters)) ∧
  dom (Measurements Measure meters).1 = dom meters ∧
  ∀ k, (Measurements Measure meters).1 !! k
       = (λ m, (Measure m).1) <$> meters !! k.
Proof.
  split; [apply Measurements_fmap|]. rewrite Measurements_fmap. simpl.
  split; [apply dom_fmap_L|]. intros k. apply lookup_fmap.
Qed.

(** [Meters] lists the meters of the map, each once, and the meter that
    [insert_if_needed] returns is always among them afterwards. *)
Theorem Meters_lists_the_map (meters : gmap Id Meter) :
  length (Meters meters) = size meters ∧
  (∀ m, m ∈ Meters meters ↔ ∃ k, meters !! k = Some m) ∧
  ∀ meter,
    (insert_if_needed MeterId meters meter).2
    ∈ Meters (insert_if_needed MeterId meters meter).1.
Proof.
  assert (∀ (l : list (Id * Meter)) res,
            foldl (λ res pair, res ++ [pair.2]) res l = res ++ l.*2) as Hfold.
  { induction l as [|p l IH]; intros res; simpl.
    - by rewrite app_nil_r.
    - by rewrite IH, <- app_assoc. }
  assert (∀ ms : gmap Id Meter, Meters ms = (map_to_list ms).*2) as Hmeters.
  { intros ms. unfold Meters. by rewrite Hfold. }
  assert (∀ (ms : gmap Id Meter) m, m ∈ Meters ms ↔ ∃ k, ms !! k = Some m) as Hin.
  { intros ms m. rewrite Hmeters, list_elem_of_fmap. split.
    - intros ([k m'] & -> & Hkm%elem_of_map_to_list). eauto.
    - intros [k Hk]. exists (k, m). split; [done|]. by apply elem_of_map_to_list. }
  split_and!.
  - by rewrite Hmeters, length_fmap, length_map_to_list.
  - apply Hin.
  - intros meter. apply Hin. exists (MeterId meter).
    unfold insert_if_needed.
    destruct (meters !! MeterId meter) eqn:Hid; simpl; [done|].
    by rewrite lookup_insert_eq.
Qed.

End meter_store.

Lemma elem_of_concat {A} (x : A) (ls : list (list A)) :
  x ∈ concat ls → ∃ l, x ∈ l ∧ l ∈ ls.
Proof.
  induction ls as [|l ls IH]; simpl.
  - by intros ?%elem_of_nil.
  - intros [Hl | Hls]%elem_of_app.
    + exists l. split; [done|by left].
    + destruct (IH Hls) as (l' & ? & ?). exists l'. split; [done|by right].
Qed.

(** A registry of MaxGauges: a snapshot holds at most one measurement per
    gauge, each reported by one of the gauges, and a snapshot taken right
    after another is empty. *)
Theorem MaxGauge_registry_snapshots (meters : gmap Id MaxGauge.t) :
  (length (MeterStore.Measurements MaxGauge.Measure meters).2 ≤ size meters)%nat ∧
  (∀ m, m ∈ (MeterStore.Measurements MaxGauge.Measure meters).2 →
        ∃ k g, meters !! k = Some g ∧ (MaxGauge.Measure g).2 = [m]) ∧
  (MeterStore.Measurements MaxGauge.Measure
     (MeterStore.Measurements MaxGauge.Measure meters).1).2 = [].
Proof.
  rewrite (Measurements_fmap MaxGauge.Measure meters). cbn [fst snd].
  assert (∀ g : MaxGauge.t, (length (MaxGauge.Measure g).2 ≤ 1)%nat) as Hone.
  { intros g. unfold MaxGauge.Measure. destruct (Double.eqb _ _); simpl; lia. }
  split_and!.
  - rewrite <- length_map_to_list.
    induction (map_to_list meters) as [|p l IH]; [done|].
    rewrite fmap_cons. cbn [concat length]. rewrite length_app.
    specialize (Hone p.2). lia.
  - intros m Hm. apply elem_of_concat in Hm as (ms & Hm & Hms).
    apply list_elem_of_fmap in Hms as ([k g] & -> & Hkg%elem_of_map_to_list).
    cbn [snd] in Hm. exists k, g. split; [done|]. revert Hm.
    unfold MaxGauge.Measure. destruct (Double.eqb _ _); simpl.
    + by intros ?%elem_of_nil.
    + by intros ->%list_elem_of_singleton.
  - rewrite (Measurements_fmap MaxGauge.Measure
               ((λ g, (MaxGauge.Measure g).1) <$> meters)).
    cbn [snd].
    assert (∀ p, p ∈ map_to_list ((λ g, (MaxGauge.Measure g).1) <$> meters) →
                 (MaxGauge.Measure p.2).2 = []) as Hidle.
    { intros [k' g'] Hp%elem_of_map_to_list. rewrite lookup_fmap in Hp.
      destruct (meters !! k') as [g0|]; simpl in Hp; [|done].
      injection Hp as <-. cbn [snd]. apply Measure_idle. by rewrite Measure_resets. }
    revert Hidle. generalize (map_to_list ((λ g, (MaxGauge.Measure g).1) <$> meters)).
    intros l Hidle. induction l as [|p l IH]; [done|].
    rewrite fmap_cons. cbn [concat]. rewrite (Hidle p) by (by left).
    apply IH. intros q Hq. apply Hidle. by right.
Qed.

(** ** The worker: the wait after a send cycle *)

Section sender.

Import Sender.

(** After a send cycle that took less than 5000 ms the worker calls
    [cv_.wait_for] with a timeout of what is left of the 5000 ms, which is
    more than nothing; after one that took 5000 ms or more it does not call
    it.  The interval is the constant [kSendEveryMillis].  This is about
    the timeout only: the wait has no predicate, and a notification or a
    spurious wake-up ends it before the timeout. *)
Theorem after_send_period ticks_per_milli elapsed :
  0 < ticks_per_milli →
  (after_send ticks_per_milli elapsed = NoWait
   ↔ kSendEveryMillis * ticks_per_milli ≤ elapsed) ∧
  (∀ sleep, after_send ticks_per_milli elapsed = WaitFor sleep →
            0 < sleep ∧
            elapsed + sleep = kSendEveryMillis * ticks_per_milli ∧
            (0 ≤ elapsed → sleep ≤ kSendEveryMillis * ticks_per_milli)).
Proof.
  intros Hk. unfold after_send, kSendEveryMillis.
  assert (Z.quot elapsed ticks_per_milli < 5000 ↔ elapsed < 5000 * ticks_per_milli)
    as Hquot.
  { destruct (Z.le_gt_cases 0 elapsed) as [Hpos | Hneg].
    - rewrite Z.quot_div_nonneg by lia. split.
      + intros Hlt. pose proof (Z.mul_succ_div_gt elapsed ticks_per_milli Hk). nia.
      + intros Hlt. apply Z.div_lt_upper_bound; lia.
    - assert (Z.quot elapsed ticks_per_milli ≤ 0).
      { replace elapsed with (- - elapsed) by lia.
        rewrite Z.quot_opp_l by lia.
        assert (0 ≤ Z.quot (- elapsed) ticks_per_milli) by (apply Z.quot_pos; lia).
        lia. }
      lia. }
  destruct (Z.ltb_spec (Z.quot elapsed ticks_per_milli) 5000) as [Hlt | Hge].
  - split.
    + split; [done|]. intros Hle. apply Hquot in Hlt. lia.
    + intros sleep [= <-]. apply Hquot in Hlt. lia.
  - split.
    + split; [|done]. intros _.
      destruct (Z.lt_ge_cases elapsed (5000 * ticks_per_milli)) as [Hlt | ?]; [|done].
      apply Hquot in Hlt. lia.
    + by intros sleep [=].
Qed.

End sender.

(** ** The properties above at sample inputs *)

Lemma MaxGauge_update_order_witness :
  MaxGauge.value_ (MaxGauge.new Sample.queueSize) = MaxGauge.kMinValue ∧
  Sample.updates ≡ₚ [Double.of_Z 9; Double.of_Z 5; Double.of_Z 2] ∧
  Double.eqb
    (MaxGauge.Get (MaxGauge.Updates (MaxGauge.new Sample.queueSize) Sample.updates))
    (MaxGauge.Get (MaxGauge.Updates (MaxGauge.new Sample.queueSize)
                     [Double.of_Z 9; Double.of_Z 5; Double.of_Z 2]))
  = true.
Proof.
  assert (Sample.updates ≡ₚ [Double.of_Z 9; Double.of_Z 5; Double.of_Z 2]) as Hperm.
  { symmetry. apply (Permutation_cons_append [Double.of_Z 5; Double.of_Z 2]). }
  split; [reflexivity|]. split; [exact Hperm|].
  exact (proj1 (MaxGauge_update_order (MaxGauge.new Sample.queueSize)
                  Sample.updates _ eq_refl Hperm)).
Defined.

Lemma MaxGauge_reported_value_witness :
  MaxGauge.value_ (MaxGauge.new Sample.queueSize) = MaxGauge.kMinValue ∧
  Sample.queue
    ∈ (MaxGauge.Measure
         (MaxGauge.Updates (MaxGauge.new Sample.queueSize) Sample.updates)).2 ∧
  Double.gt (value Sample.queue) MaxGauge.kMinValue = true.
Proof.
  assert (Sample.queue
            ∈ (MaxGauge.Measure
                 (MaxGauge.Updates (MaxGauge.new Sample.queueSize) Sample.updates)).2)
    as Hin by (vm_compute; by left).
  split; [reflexivity|]. split; [exact Hin|].
  exact (proj1 (MaxGauge_reported_value (MaxGauge.new Sample.queueSize)
                  Sample.updates Sample.queue eq_refl Hin)).
Defined.

Lemma MaxGauge_measurement_is_max_witness :
  Sample.queue
    ∈ (MaxGauge.Measure
         (MaxGauge.Updates (MaxGauge.new Sample.queueSize) Sample.updates)).2 ∧
  Publisher.op_from_tags (GetTags (id Sample.queue)) = Publisher.Max.
Proof.
  assert (Sample.queue
            ∈ (MaxGauge.Measure
                 (MaxGauge.Updates (MaxGauge.new Sample.queueSize) Sample.updates)).2)
    as Hin by (vm_compute; by left).
  split; [exact Hin|].
  exact (proj1 (MaxGauge_measurement_is_max _ Sample.queue Hin)).
Defined.

Lemma build_str_table_same_measurements_witness :
  (∀ m, m ∈ [Sample.requests; Sample.queue]
        ↔ m ∈ [Sample.queue; Sample.requests; Sample.queue]) ∧
  Publisher.build_str_table Sample.cfg [] [Sample.requests; Sample.queue]
  = Publisher.build_str_table Sample.cfg []
      [Sample.queue; Sample.requests; Sample.queue].
Proof.
  assert (∀ m, m ∈ [Sample.requests; Sample.queue]
               ↔ m ∈ [Sample.queue; Sample.requests; Sample.queue]) as Hsame.
  { intros m. rewrite !elem_of_cons, !elem_of_nil. tauto. }
  split; [exact Hsame|].
  exact (build_str_table_same_measurements Sample.cfg [] _ _ Hsame).
Defined.

Lemma account_status_count_witness :
  length [200; 503] = length [2; 1] ∧
  Publisher.account 0 [200; 503; 200] [2; 1]
    (Registry.mk (Other := MaxGauge.t) Sample.cfg ∅, []) = None.
Proof.
  split; [reflexivity|].
  exact (proj2 (proj2 (account_status_count [200; 503] [2; 1]
                         (Registry.mk (Other := MaxGauge.t) Sample.cfg ∅, [])
                         eq_refl)) 200 []).
Defined.

Lemma send_metrics_empty_witness :
  (Registry.Measurements MaxGauge.Measure Sample.registry_idle).2 = [] ∧
  Publisher.send_metrics MaxGauge.Measure Sample.answers 0
    (Sample.registry_idle, [])
  = Finished ((Registry.Measurements MaxGauge.Measure Sample.registry_idle).1, []).
Proof.
  assert ((Registry.Measurements MaxGauge.Measure Sample.registry_idle).2 = [])
    as Hidle by (by vm_compute).
  split; [exact Hidle|].
  exact (proj1 (send_metrics_empty MaxGauge.Measure Sample.answers 0
                  Sample.registry_idle [] Hidle)).
Defined.

Lemma send_metrics_conservation_witness :
  1 ≤ batch_size (Registry.GetConfig Sample.registry) ∧
  (∀ code, Registry.free Sample.registry (Counters.counter_for code)) ∧
  Registry.count Sample.registry Counters.sent = 5 ∧
  ∃ r' log',
    Publisher.send_metrics MaxGauge.Measure (λ _ _ docs, (λ _, 200) <$> docs) 3
      (Sample.registry, [])
    = Finished (r', log') ∧
    Registry.count r' Counters.sent = 3 ∧
    log' = [].
Proof.
  split; [by vm_compute|]. split; [apply Sample_registry_free|].
  split; [by vm_compute|].
  assert (length (Registry.Measurements MaxGauge.Measure Sample.registry).2 = 3%nat)
    as Hsnapshot by (by vm_compute).
  destruct (send_metrics_conservation MaxGauge.Measure
              (λ _ _ docs, (λ _, 200) <$> docs) 3 Sample.registry [])
    as (parts & r' & log' & Hrun & _ & _ & _ & Hok).
  - by vm_compute.
  - rewrite Hsnapshot. apply le_n.
  - intros _ _ docs. apply length_fmap.
  - apply Sample_registry_free.
  - exists r', log'. split; [exact Hrun|].
    destruct Hok as [Hsent Hlog].
    + apply Forall_fmap, Forall_forall. by intros.
    + split; [|exact Hlog]. rewrite Hsent, Hsnapshot. reflexivity.
Defined.

Lemma Start_after_Stop_witness :
  uri Sample.cfg ≠ EmptyString ∧
  Publisher.started_ Publisher.new = false ∧
  ∃ w2 p2,
    Publisher.Stop (Publisher.Start Sample.cfg Publisher.fresh Publisher.new).1
                   (Publisher.Start Sample.cfg Publisher.fresh Publisher.new).2
    = Publisher.Returns w2 p2 ∧
    Publisher.Start Sample.cfg w2 p2
    = (Publisher.emit w2
         (Publisher.Warn "Registry already started. Ignoring start request"), p2).
Proof.
  split; [discriminate|]. split; [reflexivity|].
  destruct (Start_after_Stop Sample.cfg Publisher.fresh Publisher.new)
    as (w2 & p2 & Hstop & _ & _ & Hstart).
  - discriminate.
  - reflexivity.
  - exists w2, p2. by split.
Defined.

Lemma Stop_after_Start_without_uri_witness :
  uri Sample.cfg_no_uri = EmptyString ∧
  Publisher.started_ Publisher.new = false ∧
  Publisher.Stop
    (Publisher.Start Sample.cfg_no_uri Publisher.fresh Publisher.new).1
    (Publisher.Start Sample.cfg_no_uri Publisher.fresh Publisher.new).2
  = Publisher.Returns
      (Publisher.mkProcess true
         [Publisher.GlobalInit;
          Publisher.Warn "Registry config has no uri. Ignoring start request"])
      Publisher.new.
Proof.
  split; [reflexivity|]. split; [reflexivity|].
  exact (proj1 (Stop_after_Start_without_uri Sample.cfg_no_uri Publisher.fresh
                  Publisher.new eq_refl eq_refl)).
Defined.

Lemma start_all_stop_all_witness :
  Forall (λ rc, uri rc.2 ≠ EmptyString) Sample.two_types ∧
  ∃ pw' ps',
    Lifecycle.stop_all
      (Publisher.start_all Publisher.fresh_world
         ((λ rc, (rc.1, (rc.2, Publisher.new))) <$> Sample.two_types)).1
      (zip Sample.two_types.*1
         (Publisher.start_all Publisher.fresh_world
            ((λ rc, (rc.1, (rc.2, Publisher.new))) <$> Sample.two_types)).2)
    = Some (pw', ps') ∧
    length (filter (λ e, e = Publisher.GlobalInit) (Publisher.happened pw')) = 2%nat ∧
    length (filter (λ e, e = Publisher.GlobalShutdown) (Publisher.happened pw'))
    = 3%nat.
Proof.
  assert (Forall (λ rc, uri rc.2 ≠ EmptyString) Sample.two_types)
    as Huris by (repeat constructor; discriminate).
  split; [exact Huris|].
  destruct (Lifecycle.stop_all
      (Publisher.start_all Publisher.fresh_world
         ((λ rc, (rc.1, (rc.2, Publisher.new))) <$> Sample.two_types)).1
      (zip Sample.two_types.*1
         (Publisher.start_all Publisher.fresh_world
            ((λ rc, (rc.1, (rc.2, Publisher.new))) <$> Sample.two_types)).2))
    as [[pw' ps']|] eqn:Hstop; [|by vm_compute in Hstop].
  destruct (start_all_stop_all Sample.two_types pw' ps' Huris Hstop)
    as (_ & Hinit & _ & _ & Hshut & _).
  exists pw', ps'. split; [reflexivity|]. split; [|exact Hshut].
  rewrite Hinit. by vm_compute.
Defined.

Lemma after_send_period_witness :
  0 < 1000000 ∧
  Sender.after_send 1000000 1200000000 = Sender.WaitFor 3800000000 ∧
  0 < 3800000000.
Proof.
  split; [lia|]. split; [reflexivity|].
  exact (proj1 (proj2 (after_send_period 1000000 1200000000 eq_refl)
                  3800000000 eq_refl)).
Defined.

(** The wait after cycles of 1.2 s, of exactly 5 s and of 7 s, on a clock
    that ticks in nanoseconds. *)
Example after_send_samples :
  Sender.after_send 1000000 1200000000 = Sender.WaitFor 3800000000 ∧
  Sender.after_send 1000000 4999999999 = Sender.WaitFor 1 ∧
  Sender.after_send 1000000 5000000000 = Sender.NoWait ∧
  Sender.after_send 1000000 7000000000 = Sender.NoWait.
Proof. repeat split; reflexivity. Qed.

(** ** Records against a table that lacks a string *)

Section missing_strings.

Import Publisher Wire.

Lemma add_tags_loop_defined payload (strings : gmap string Z) tags :
  is_Some (add_tags_loop payload strings tags) ↔
  ∀ tag, tag ∈ tags → is_Some (strings !! tag.1) ∧ is_Some (strings !! tag.2).
Proof.
  revert payload. induction tags as [|tag tags IH]; intros payload; simpl.
  - split; [|by eauto]. intros _ tag Htag. by apply elem_of_nil in Htag.
  - destruct (strings !! tag.1) as [k|] eqn:Hk; simpl.
    + destruct (strings !! tag.2) as [v|] eqn:Hv; simpl.
      * rewrite IH. split.
        -- intros Hall t [-> | Ht]%elem_of_cons; [|by apply Hall].
           rewrite Hk, Hv. eauto.
        -- intros Hall t Ht. apply Hall. by right.
      * split; [by intros [? [=]]|]. intros Hall.
        destruct (Hall tag) as [_ [? Hv']]; [by left|]. congruence.
    + split; [by intros [? [=]]|]. intros Hall.
      destruct (Hall tag) as [[? Hk'] _]; [by left|]. congruence.
Qed.

Lemma add_tags_defined payload (strings : gmap string Z) (tags : Tags) :
  is_Some (add_tags payload strings tags) ↔
  ∀ s, in_tags tags s → is_Some (strings !! s).
Proof.
  unfold add_tags. rewrite add_tags_loop_defined. split.
  - intros Hall s (k & v & Hkv%elem_of_map_to_list & [-> | ->]);
      by destruct (Hall (k, v) Hkv).
  - intros Hall [k v] Hkv%elem_of_map_to_list.
    split; apply Hall; exists k, v; auto.
Qed.

Lemma record_chain_defined cfg payload (strings : gmap string Z) m code :
  is_Some
    (add_tags payload strings (common_tags cfg)
     ≫= λ payload1,
       add_tags payload1 strings (GetTags (id m))
       ≫= λ payload2,
         strings !! "name"%string
         ≫= λ name_idx,
           strings !! Name (id m)
           ≫= λ name_value_idx,
             Some (payload2 ++ [JInt name_idx; JInt name_value_idx;
                                JInt code; JDouble (value m)])) ↔
  (∀ s, in_tags (common_tags cfg) s → is_Some (strings !! s)) ∧
  (∀ s, in_tags (GetTags (id m)) s → is_Some (strings !! s)) ∧
  is_Some (strings !! "name"%string) ∧
  is_Some (strings !! Name (id m)).
Proof.
  pose proof (add_tags_defined payload strings (common_tags cfg)) as Hcommon.
  destruct (add_tags payload strings (common_tags cfg)) as [payload1|]; simpl.
  2: { split; [by intros [? [=]]|]. intros (Hc & _).
       apply Hcommon in Hc. by destruct Hc. }
  pose proof (add_tags_defined payload1 strings (GetTags (id m))) as Htags.
  destruct (add_tags payload1 strings (GetTags (id m))) as [payload2|]; simpl.
  2: { split; [by intros [? [=]]|]. intros (_ & Ht & _).
       apply Htags in Ht. by destruct Ht. }
  assert (∀ s, in_tags (common_tags cfg) s → is_Some (strings !! s)) as Hc
    by (apply Hcommon; eauto).
  assert (∀ s, in_tags (GetTags (id m)) s → is_Some (strings !! s)) as Ht
    by (apply Htags; eauto).
  destruct (strings !! "name"%string) as [n|]; simpl.
  2: { split; [by intros [? [=]]|]. by intros (_ & _ & [? [=]] & _). }
  destruct (strings !! Name (id m)) as [v|]; simpl.
  2: { split; [by intros [? [=]]|]. by intros (_ & _ & _ & [? [=]]). }
  split; eauto 10.
Qed.

(** The record of a measurement with a recognized statistic is defined
    exactly when the table has all the strings it needs: the keys and
    values of the common tags and of the tags of the measurement, [name]
    and the name of the measurement.  With one of them missing, as with a
    table built for another batch, [find] gives [end()] and the record is
    undefined.  A measurement with an unrecognized statistic needs no
    string at all. *)
Theorem append_measurement_defined cfg payload (strings : gmap string Z) m :
  (op_code (GetTags (id m)) = None →
   append_measurement cfg payload strings m = Some payload) ∧
  (op_code (GetTags (id m)) ≠ None →
   (is_Some (append_measurement cfg payload strings m) ↔
    ∀ s, referenced cfg [m] s → is_Some (strings !! s))).
Proof.
  unfold append_measurement. rewrite op_from_tags_op_code.
  assert ((∀ s, referenced cfg [m] s → is_Some (strings !! s)) ↔
          (∀ s, in_tags (common_tags cfg) s → is_Some (strings !! s)) ∧
          (∀ s, in_tags (GetTags (id m)) s → is_Some (strings !! s)) ∧
          is_Some (strings !! "name"%string) ∧
          is_Some (strings !! Name (id m))) as Hneeded.
  { unfold referenced. split.
    - intros Hall. split_and!; try intros s Hs; apply Hall.
      + by left.
      + right; right. exists m. split; [by left|by right].
      + right; by left.
      + right; right. exists m. split; [by left|by left].
    - intros (Hc & Ht & Hn & Hv) s
             [? | [-> | (m' & ->%list_elem_of_singleton & [-> | ?])]]; auto. }
  split.
  { intros Hop. by destruct (op_from_tags (GetTags (id m))). }
  intros Hop. rewrite Hneeded.
  destruct (op_from_tags (GetTags (id m))); [done|..];
    apply record_chain_defined.
Qed.

End missing_strings.

Lemma append_measurement_defined_witness :
  Wire.op_code (GetTags (id Sample.queue)) ≠ None ∧
  Publisher.append_measurement Sample.cfg []
    (Publisher.build_str_table Sample.cfg [] [Sample.requests]).2 Sample.queue
  = None.
Proof.
  assert (Wire.op_code (GetTags (id Sample.queue)) ≠ None) as Hop
    by (vm_compute; discriminate).
  split; [exact Hop|].
  destruct (Publisher.append_measurement Sample.cfg []
              (Publisher.build_str_table Sample.cfg [] [Sample.requests]).2
              Sample.queue) as [doc|] eqn:Hdoc; [|reflexivity].
  exfalso.
  pose proof (proj1 (proj2 (append_measurement_defined Sample.cfg []
                              (Publisher.build_str_table Sample.cfg []
                                 [Sample.requests]).2 Sample.queue) Hop))
    as Hall.
  rewrite Hdoc in Hall.
  destruct (Hall (mk_is_Some _ _ eq_refl) "queueSize"%string) as [i Hi].
  - right; right. exists Sample.queue. split; [by left|by left].
  - vm_compute in Hi. discriminate.
Defined.
